(** * abslint128: 128-bit integers built from two 64-bit limbs

    A shallow embedding of [include/abslint128.h] and [src/int128.cpp]
    (the portable configuration, without [ABSL_HAVE_INTRINSIC_INT128]),
    followed by the properties of the arithmetic, the long division and
    the formatter.

    Machine integers are integers of [Z] together with their wrap-around:
    a [uint64_t] is a [Z] in [0, 2^64), an [int64_t] a [Z] in
    [-2^63, 2^63).  Every operation of the source is written with the
    reduction the hardware performs. *)

From Stdlib Require Import ZArith Lia Bool List Ascii String.
Import ListNotations.

Local Open Scope Z_scope.

(** ** 64-bit limbs *)

Module U64.

Definition bits : Z := 64.
Definition modulus : Z := 2 ^ 64.
Definition max : Z := 2 ^ 64 - 1.

(** [std::numeric_limits<uint64_t>] range. *)
Definition in_range (x : Z) : Prop := 0 <= x < modulus.

Definition wrap (x : Z) : Z := x mod modulus.

Definition add (x y : Z) : Z := wrap (x + y).
Definition sub (x y : Z) : Z := wrap (x - y).
Definition mul (x y : Z) : Z := wrap (x * y).
Definition not (x : Z) : Z := wrap (Z.lnot x).
(** [x << k] and [x >> k] on a [uint64_t]; C++ defines them for
    [0 <= k < 64] only. *)
Definition shl (x k : Z) : Z := wrap (Z.shiftl x k).
Definition shr (x k : Z) : Z := Z.shiftr x k.

End U64.

(** ** The unsigned type *)

(** [class uint128_t] holds [hi_] and [lo_]; the constructor
    [uint128_t(uint64_t high, uint64_t low)] and the factory [MakeUint128]
    take the high limb first. *)
Record uint128_t : Type := MakeUint128 {
  Uint128High64 : Z;
  Uint128Low64 : Z
}.

(** [class int128_t] without the intrinsic: [int64_t hi_; uint64_t lo_]. *)
Record int128_t : Type := MakeInt128 {
  Int128High64 : Z;
  Int128Low64 : Z
}.

Definition wf128 (v : uint128_t) : Prop :=
  U64.in_range (Uint128High64 v) /\ U64.in_range (Uint128Low64 v).

Definition wfi128 (v : int128_t) : Prop :=
  - 2 ^ 63 <= Int128High64 v < 2 ^ 63 /\ U64.in_range (Int128Low64 v).

(** The number a [uint128_t] stands for. *)
Definition value (v : uint128_t) : Z :=
  Uint128High64 v * 2 ^ 64 + Uint128Low64 v.

(** The number an [int128_t] stands for (two's complement). *)
Definition svalue (v : int128_t) : Z :=
  Int128High64 v * 2 ^ 64 + Int128Low64 v.

(** *** Constructors from native integers *)

(** [uint128_t(int v)], [uint128_t(long v)], [uint128_t(long long v)]. *)
Definition uint128_of_signed (v : Z) : uint128_t :=
  MakeUint128 (if v <? 0 then U64.max else 0) (U64.wrap v).

(** [uint128_t(unsigned int v)], [uint128_t(unsigned long v)],
    [uint128_t(unsigned long long v)]. *)
Definition uint128_of_unsigned (v : Z) : uint128_t :=
  MakeUint128 0 v.

(** [uint128_t(int128_t v)]: the limbs are kept, the high one cast to
    [uint64_t]. *)
Definition uint128_of_int128 (v : int128_t) : uint128_t :=
  MakeUint128 (U64.wrap (Int128High64 v)) (Int128Low64 v).

(** [operator unsigned long long()]. *)
Definition to_unsigned_long_long (v : uint128_t) : Z := Uint128Low64 v.

(** [Uint128Max()], [Int128Max()], [Int128Min()]. *)
Definition Uint128Max : uint128_t := MakeUint128 U64.max U64.max.
Definition Int128Max : int128_t := MakeInt128 (2 ^ 63 - 1) U64.max.
Definition Int128Min : int128_t := MakeInt128 (- 2 ^ 63) 0.

(** *** Comparison operators *)

Definition eq128 (lhs rhs : uint128_t) : bool :=
  (Uint128Low64 lhs =? Uint128Low64 rhs) &&
  (Uint128High64 lhs =? Uint128High64 rhs).

Definition ne128 (lhs rhs : uint128_t) : bool := negb (eq128 lhs rhs).

Definition lt128 (lhs rhs : uint128_t) : bool :=
  if Uint128High64 lhs =? Uint128High64 rhs
  then Uint128Low64 lhs <? Uint128Low64 rhs
  else Uint128High64 lhs <? Uint128High64 rhs.

Definition gt128 (lhs rhs : uint128_t) : bool := lt128 rhs lhs.
Definition le128 (lhs rhs : uint128_t) : bool := negb (lt128 rhs lhs).
Definition ge128 (lhs rhs : uint128_t) : bool := negb (lt128 lhs rhs).

(** *** Unary and bitwise operators *)

(** [operator-(uint128_t val)]. *)
Definition neg128 (val : uint128_t) : uint128_t :=
  let hi := U64.not (Uint128High64 val) in
  let lo := U64.add (U64.not (Uint128Low64 val)) 1 in
  let hi := if lo =? 0 then U64.add hi 1 else hi in
  MakeUint128 hi lo.

Definition not128 (val : uint128_t) : uint128_t :=
  MakeUint128 (U64.not (Uint128High64 val)) (U64.not (Uint128Low64 val)).

Definition or128 (lhs rhs : uint128_t) : uint128_t :=
  MakeUint128 (Z.lor (Uint128High64 lhs) (Uint128High64 rhs))
              (Z.lor (Uint128Low64 lhs) (Uint128Low64 rhs)).

Definition and128 (lhs rhs : uint128_t) : uint128_t :=
  MakeUint128 (Z.land (Uint128High64 lhs) (Uint128High64 rhs))
              (Z.land (Uint128Low64 lhs) (Uint128Low64 rhs)).

Definition xor128 (lhs rhs : uint128_t) : uint128_t :=
  MakeUint128 (Z.lxor (Uint128High64 lhs) (Uint128High64 rhs))
              (Z.lxor (Uint128Low64 lhs) (Uint128Low64 rhs)).

(** *** Shifts *)

(** [operator<<(uint128_t lhs, int amount)], the branch without the
    intrinsic. *)
Definition shl128 (lhs : uint128_t) (amount : Z) : uint128_t :=
  if amount <? 64 then
    if negb (amount =? 0) then
      MakeUint128
        (Z.lor (U64.shl (Uint128High64 lhs) amount)
               (U64.shr (Uint128Low64 lhs) (64 - amount)))
        (U64.shl (Uint128Low64 lhs) amount)
    else lhs
  else MakeUint128 (U64.shl (Uint128Low64 lhs) (amount - 64)) 0.

(** [operator>>(uint128_t lhs, int amount)]. *)
Definition shr128 (lhs : uint128_t) (amount : Z) : uint128_t :=
  if amount <? 64 then
    if negb (amount =? 0) then
      MakeUint128
        (U64.shr (Uint128High64 lhs) amount)
        (Z.lor (U64.shr (Uint128Low64 lhs) amount)
               (U64.shl (Uint128High64 lhs) (64 - amount)))
    else lhs
  else MakeUint128 0 (U64.shr (Uint128High64 lhs) (amount - 64)).

(** *** Addition, subtraction, multiplication *)

(** [operator+(uint128_t lhs, uint128_t rhs)]. *)
Definition add128 (lhs rhs : uint128_t) : uint128_t :=
  let result :=
    MakeUint128 (U64.add (Uint128High64 lhs) (Uint128High64 rhs))
                (U64.add (Uint128Low64 lhs) (Uint128Low64 rhs)) in
  if Uint128Low64 result <? Uint128Low64 lhs then
    MakeUint128 (U64.add (Uint128High64 result) 1) (Uint128Low64 result)
  else result.

(** [operator-(uint128_t lhs, uint128_t rhs)]. *)
Definition sub128 (lhs rhs : uint128_t) : uint128_t :=
  let result :=
    MakeUint128 (U64.sub (Uint128High64 lhs) (Uint128High64 rhs))
                (U64.sub (Uint128Low64 lhs) (Uint128Low64 rhs)) in
  if Uint128Low64 lhs <? Uint128Low64 rhs then
    MakeUint128 (U64.sub (Uint128High64 result) 1) (Uint128Low64 result)
  else result.

(** [operator*(uint128_t lhs, uint128_t rhs)], the portable branch with
    four 32-bit partial products. *)
Definition mul128 (lhs rhs : uint128_t) : uint128_t :=
  let a32 := U64.shr (Uint128Low64 lhs) 32 in
  let a00 := Z.land (Uint128Low64 lhs) 0xffffffff in
  let b32 := U64.shr (Uint128Low64 rhs) 32 in
  let b00 := Z.land (Uint128Low64 rhs) 0xffffffff in
  let result :=
    MakeUint128
      (U64.add (U64.add (U64.mul (Uint128High64 lhs) (Uint128Low64 rhs))
                        (U64.mul (Uint128Low64 lhs) (Uint128High64 rhs)))
               (U64.mul a32 b32))
      (U64.mul a00 b00) in
  let result :=
    add128 result (shl128 (uint128_of_unsigned (U64.mul a32 b00)) 32) in
  let result :=
    add128 result (shl128 (uint128_of_unsigned (U64.mul a00 b32)) 32) in
  result.

(** ** Leading zeros and the highest set bit *)

(** A failed [assert], an out-of-bounds read or undefined behaviour is
    [None]; the rest of the code runs in the option monad. *)
Definition bind {A B : Type} (m : option A) (k : A -> option B) : option B :=
  match m with
  | Some a => k a
  | None => None
  end.

Notation "x <- m ;; k" := (bind m (fun x => k))
  (at level 61, m at next level, right associativity).
Notation "' pat <- m ;; k" := (bind m (fun x => match x with pat => k end))
  (at level 61, pat pattern, m at next level, right associativity).

(** The number of bits of [n]: one more than the index of its highest set
    bit, and zero for zero. *)
Definition bit_length (n : Z) : Z :=
  if n =? 0 then 0 else Z.log2 n + 1.

(** The string literal ["\4\3\2\2\1\1\1\1\0\0\0\0\0\0\0"]: fifteen
    characters and the terminating NUL. *)
Definition clz_nibble_table : list Z :=
  [4; 3; 2; 2; 1; 1; 1; 1; 0; 0; 0; 0; 0; 0; 0; 0].

(** One [if (n >> k) { zeroes -= k; n >>= k; }] of the fallback. *)
Definition clz_step (k : Z) (st : Z * Z) : Z * Z :=
  let '(zeroes, n) := st in
  if negb (U64.shr n k =? 0) then (zeroes - k, U64.shr n k) else (zeroes, n).

Definition CountLeadingZeros64Slow (n : Z) : option Z :=
  let st := (60, n) in
  let st := clz_step 32 st in
  let st := clz_step 16 st in
  let st := clz_step 8 st in
  let '(zeroes, n) := clz_step 4 st in
  c <- nth_error clz_nibble_table (Z.to_nat n) ;;
  Some (c + zeroes).

(** Compiler intrinsics, by their documentation.  [_BitScanReverse64] and
    [_BitScanReverse] return zero when the mask is zero and otherwise
    store the index of the highest set bit; [__builtin_clzll] is
    undefined at zero. *)
Definition BitScanReverse (mask : Z) : option Z :=
  if mask =? 0 then None else Some (Z.log2 mask).

Definition builtin_clzll (n : Z) : option Z :=
  if n =? 0 then None else Some (63 - Z.log2 n).

(** The four branches of the [#if] in [CountLeadingZeros64]. *)
Inductive clz_path : Type :=
| MsvcX64
| Msvc32
| GnuC
| Fallback.

Definition CountLeadingZeros64 (p : clz_path) (n : Z) : option Z :=
  match p with
  | MsvcX64 =>
      match BitScanReverse n with
      | Some result => Some (63 - result)
      | None => Some 64
      end
  | Msvc32 =>
      match (if negb (U64.shr n 32 =? 0)
             then BitScanReverse (U64.shr n 32 mod 2 ^ 32) else None) with
      | Some result => Some (31 - result)
      | None =>
          match BitScanReverse (n mod 2 ^ 32) with
          | Some result => Some (63 - result)
          | None => Some 64
          end
      end
  | GnuC => if n =? 0 then Some 64 else builtin_clzll n
  | Fallback => CountLeadingZeros64Slow n
  end.

(** [Fls128]: position of the most significant set bit; the argument is
    not zero ([ABSL_INTERNAL_ASSUME]). *)
Definition Fls128 (p : clz_path) (n : uint128_t) : option Z :=
  let hi := Uint128High64 n in
  if negb (hi =? 0) then
    c <- CountLeadingZeros64 p hi ;; Some (127 - c)
  else
    let low := Uint128Low64 n in
    if low =? 0 then None
    else c <- CountLeadingZeros64 p low ;; Some (63 - c).

(** ** Long division *)

(** One turn of the shift-subtract loop on
    [(dividend, denominator, quotient)]. *)
Definition DivMod_step (st : uint128_t * uint128_t * uint128_t)
  : uint128_t * uint128_t * uint128_t :=
  let '(dividend, denominator, quotient) := st in
  let quotient := shl128 quotient 1 in
  let '(dividend, quotient) :=
    if ge128 dividend denominator
    then (sub128 dividend denominator, or128 quotient (uint128_of_signed 1))
    else (dividend, quotient) in
  (dividend, shr128 denominator 1, quotient).

Fixpoint DivMod_loop (turns : nat) (st : uint128_t * uint128_t * uint128_t)
  : uint128_t * uint128_t * uint128_t :=
  match turns with
  | O => st
  | S turns' => DivMod_loop turns' (DivMod_step st)
  end.

(** [uint128_t::DivMod]; the pair is [( *quotient_ret, *remainder_ret )]. *)
Definition DivMod (p : clz_path) (dividend divisor : uint128_t)
  : option (uint128_t * uint128_t) :=
  if negb (ne128 divisor (uint128_of_signed 0)) then None
  else if gt128 divisor dividend then Some (uint128_of_signed 0, dividend)
  else if eq128 divisor dividend
       then Some (uint128_of_signed 1, uint128_of_signed 0)
  else
    let denominator := divisor in
    let quotient := uint128_of_signed 0 in
    fd <- Fls128 p dividend ;;
    fn <- Fls128 p denominator ;;
    let shift := fd - fn in
    let denominator := shl128 denominator shift in
    let '(dividend, _, quotient) :=
      DivMod_loop (Z.to_nat (shift + 1)) (dividend, denominator, quotient) in
    Some (quotient, dividend).

(** [operator/] and [operator%] on [uint128_t]. *)
Definition div128 (p : clz_path) (lhs rhs : uint128_t) : option uint128_t :=
  '(quotient, remainder) <- DivMod p lhs rhs ;; Some quotient.

Definition mod128 (p : clz_path) (lhs rhs : uint128_t) : option uint128_t :=
  '(quotient, remainder) <- DivMod p lhs rhs ;; Some remainder.

(** ** The signed type *)

(** [int128_t_internal::BitCastToSigned]. *)
Definition BitCastToSigned (v : Z) : Z :=
  if negb (Z.land v (Z.shiftl 1 63) =? 0) then Z.lnot (U64.not v) else v.

(** [UnsignedAbsoluteValue]. *)
Definition UnsignedAbsoluteValue (v : int128_t) : uint128_t :=
  if Int128High64 v <? 0
  then neg128 (uint128_of_int128 v)
  else uint128_of_int128 v.

(** Modelled from the spec: the constructor [int128_t(int)] and
    [operator==] on [int128_t] are defined in [int128_no_intrinsic.inc];
    construction sign-extends into the high limb and equality compares
    both limbs. *)
Definition int128_of_signed (v : Z) : int128_t :=
  MakeInt128 (if v <? 0 then -1 else 0) (U64.wrap v).

Definition eq_i128 (lhs rhs : int128_t) : bool :=
  (Int128Low64 lhs =? Int128Low64 rhs) &&
  (Int128High64 lhs =? Int128High64 rhs).

Definition uint128_to_int128 (v : uint128_t) : int128_t :=
  MakeInt128 (BitCastToSigned (Uint128High64 v)) (Uint128Low64 v).

(** [int128_t::DivMod]. *)
Definition IDivMod (p : clz_path) (dividend divisor : int128_t)
  : option (int128_t * int128_t) :=
  if negb (negb (eq_i128 dividend Int128Min)
           || negb (eq_i128 divisor (int128_of_signed (-1))))
  then None
  else
    '(quotient, remainder) <-
      DivMod p (UnsignedAbsoluteValue dividend)
               (UnsignedAbsoluteValue divisor) ;;
    let quotient :=
      if negb (Bool.eqb (Int128High64 dividend <? 0)
                        (Int128High64 divisor <? 0))
      then neg128 quotient else quotient in
    let quotient_ret := uint128_to_int128 quotient in
    let remainder :=
      if Int128High64 dividend <? 0 then neg128 remainder else remainder in
    let remainder_ret := uint128_to_int128 remainder in
    Some (quotient_ret, remainder_ret).

(** [operator/] and [operator%] on [int128_t]. *)
Definition idiv128 (p : clz_path) (lhs rhs : int128_t) : option int128_t :=
  if negb (negb (eq_i128 lhs Int128Min)
           || negb (eq_i128 rhs (int128_of_signed (-1))))
  then None
  else
    '(quotient, remainder) <-
      DivMod p (UnsignedAbsoluteValue lhs) (UnsignedAbsoluteValue rhs) ;;
    let quotient :=
      if negb (Bool.eqb (Int128High64 lhs <? 0) (Int128High64 rhs <? 0))
      then neg128 quotient else quotient in
    Some (uint128_to_int128 quotient).

Definition imod128 (p : clz_path) (lhs rhs : int128_t) : option int128_t :=
  if negb (negb (eq_i128 lhs Int128Min)
           || negb (eq_i128 rhs (int128_of_signed (-1))))
  then None
  else
    '(quotient, remainder) <-
      DivMod p (UnsignedAbsoluteValue lhs) (UnsignedAbsoluteValue rhs) ;;
    let remainder :=
      if Int128High64 lhs <? 0 then neg128 remainder else remainder in
    Some (uint128_to_int128 remainder).

(** ** Formatting *)

(** The bits of [std::ios_base::fmtflags] that [ToFormattedString] reads:
    the three of [basefield], [showbase] and [uppercase]. *)
Record fmtflags : Type := {
  f_dec : bool;
  f_oct : bool;
  f_hex : bool;
  f_showbase : bool;
  f_uppercase : bool
}.

(** [std::ios_base::fmtflags()], the default argument. *)
Definition fmtflags_none : fmtflags :=
  {| f_dec := false; f_oct := false; f_hex := false;
     f_showbase := false; f_uppercase := false |}.

Definition ios_dec : fmtflags :=
  {| f_dec := true; f_oct := false; f_hex := false;
     f_showbase := false; f_uppercase := false |}.

(** [(flags & basefield) == hex] and [(flags & basefield) == oct]. *)
Definition basefield_is_hex (f : fmtflags) : bool :=
  f_hex f && negb (f_dec f) && negb (f_oct f).

Definition basefield_is_oct (f : fmtflags) : bool :=
  f_oct f && negb (f_dec f) && negb (f_hex f).

(** The radix [std::num_put] converts with: octal or hexadecimal when
    [basefield] is exactly that bit, decimal otherwise. *)
Definition conv_base (f : fmtflags) : Z :=
  if basefield_is_oct f then 8
  else if basefield_is_hex f then 16
  else 10.

Definition digit_char (upper : bool) (d : Z) : ascii :=
  ascii_of_nat
    (Z.to_nat (if d <? 10 then 48 + d
               else (if upper then 55 else 87) + d)).

(** The [w] low digits of [n] in base [b], most significant first. *)
Fixpoint fixed_digits (b : Z) (w : nat) (n : Z) : list Z :=
  match w with
  | O => []
  | S w' => fixed_digits b w' (n / b) ++ [n mod b]
  end.

(** Leading zeros removed, the last digit kept. *)
Fixpoint strip_zeros (l : list Z) : list Z :=
  match l with
  | d :: (_ :: _) as tl => if d =? 0 then strip_zeros tl else l
  | _ => l
  end.

(** The numeral of [n], for [0 <= n < b ^ w]. *)
Definition numeral (b : Z) (w : nat) (n : Z) : list Z :=
  strip_zeros (fixed_digits b w n).

(** The digits [std::num_put] writes for a [uint64_t]: sixty-four digits
    hold it in any base. *)
Definition u64_digits (b : Z) (x : Z) : list Z := numeral b 64 x.

(** The number a list of digits stands for. *)
Definition digits_value (b : Z) (ds : list Z) : Z :=
  fold_left (fun acc d => acc * b + d) ds 0.

(** A numeral in canonical form: digits of the base, and no leading zero
    except for the numeral of zero. *)
Definition canonical (b : Z) (ds : list Z) : Prop :=
  Forall (fun d => 0 <= d < b) ds /\
  ds <> [] /\
  (hd 0 ds <> 0 \/ ds = [0]).

(** [std::ostringstream], as far as the formatter drives it. *)
Record ostringstream : Type := {
  os_flags : fmtflags;
  os_fill : ascii;
  os_width : Z;
  os_buf : list ascii
}.

(** A fresh stream: [dec], fill [' '], width [0]; [adjustfield] is unset
    (padding goes to the left) and the formatter never sets it. *)
Definition ostringstream_new : ostringstream :=
  {| os_flags := ios_dec; os_fill := " "%char; os_width := 0; os_buf := [] |}.

(** [os.setf(flags & copy_mask, copy_mask)] with [copy_mask] =
    [basefield | showbase | uppercase]. *)
Definition setf_copy (os : ostringstream) (flags : fmtflags) : ostringstream :=
  {| os_flags := flags; os_fill := os_fill os;
     os_width := os_width os; os_buf := os_buf os |}.

(** The flags after [std::noshowbase]. *)
Definition clear_showbase (f : fmtflags) : fmtflags :=
  {| f_dec := f_dec f; f_oct := f_oct f; f_hex := f_hex f;
     f_showbase := false; f_uppercase := f_uppercase f |}.

Definition noshowbase (os : ostringstream) : ostringstream :=
  {| os_flags := clear_showbase (os_flags os);
     os_fill := os_fill os; os_width := os_width os; os_buf := os_buf os |}.

Definition setfill (c : ascii) (os : ostringstream) : ostringstream :=
  {| os_flags := os_flags os; os_fill := c;
     os_width := os_width os; os_buf := os_buf os |}.

Definition setw (w : Z) (os : ostringstream) : ostringstream :=
  {| os_flags := os_flags os; os_fill := os_fill os;
     os_width := w; os_buf := os_buf os |}.

(** The base prefix of [showbase]: nothing for zero and in decimal. *)
Definition base_prefix (f : fmtflags) (x : Z) : list ascii :=
  if f_showbase f && negb (x =? 0) then
    if basefield_is_oct f then ["0"%char]
    else if basefield_is_hex f
         then ["0"%char; if f_uppercase f then "X"%char else "x"%char]
    else []
  else [].

(** [os << x] for a [uint64_t]: prefix and digits, padded on the left to
    the field width, which is then reset. *)
Definition put_u64 (os : ostringstream) (x : Z) : ostringstream :=
  let f := os_flags os in
  let body :=
    base_prefix f x ++
    map (digit_char (f_uppercase f)) (u64_digits (conv_base f) x) in
  let pad :=
    repeat (os_fill os) (Z.to_nat (os_width os - Z.of_nat (List.length body))) in
  {| os_flags := f; os_fill := os_fill os; os_width := 0;
     os_buf := os_buf os ++ pad ++ body |}.

(** [os.str()]. *)
Definition str (os : ostringstream) : string :=
  string_of_list_ascii (os_buf os).

(** The [switch] that selects the chunk divisor and its width. *)
Definition chunk_div (flags : fmtflags) : uint128_t * Z :=
  if basefield_is_hex flags then (uint128_of_signed 0x1000000000000000, 15)
  else if basefield_is_oct flags then (uint128_of_unsigned (8 ^ 21), 21)
  else (uint128_of_unsigned 10000000000000000000, 19).

(** [uint128_t::ToFormattedString]. *)
Definition ToFormattedString (p : clz_path) (v : uint128_t) (flags : fmtflags)
  : option string :=
  let '(div, div_base_log) := chunk_div flags in
  let os := ostringstream_new in
  let os := setf_copy os flags in
  let high := v in
  '(high, low) <- DivMod p high div ;;
  '(high, mid) <- DivMod p high div ;;
  let os :=
    if negb (Uint128Low64 high =? 0) then
      let os := put_u64 os (Uint128Low64 high) in
      let os := setw div_base_log (setfill "0"%char (noshowbase os)) in
      let os := put_u64 os (Uint128Low64 mid) in
      setw div_base_log os
    else if negb (Uint128Low64 mid =? 0) then
      let os := put_u64 os (Uint128Low64 mid) in
      setw div_base_log (setfill "0"%char (noshowbase os))
    else os in
  let os := put_u64 os (Uint128Low64 low) in
  Some (str os).

(** [uint128_t::ToString]. *)
Definition ToString (p : clz_path) (v : uint128_t) : option string :=
  ToFormattedString p v fmtflags_none.

(** ** Further operators of [uint128_t] *)

(** [operator!(uint128_t)] and [operator bool()]. *)
Definition lnot128 (val : uint128_t) : bool :=
  (Uint128High64 val =? 0) && (Uint128Low64 val =? 0).

Definition to_bool (v : uint128_t) : bool :=
  negb (Uint128Low64 v =? 0) || negb (Uint128High64 v =? 0).

(** [operator++()] and [operator--()]: [*this += 1], [*this -= 1]. *)
Definition inc128 (v : uint128_t) : uint128_t :=
  add128 v (uint128_of_signed 1).

Definition dec128 (v : uint128_t) : uint128_t :=
  sub128 v (uint128_of_signed 1).

(** [operator++(int)] and [operator--(int)]: the pair is the value
    returned and the new [*this]. *)
Definition post_inc128 (v : uint128_t) : uint128_t * uint128_t :=
  let tmp := v in (tmp, add128 v (uint128_of_signed 1)).

Definition post_dec128 (v : uint128_t) : uint128_t * uint128_t :=
  let tmp := v in (tmp, sub128 v (uint128_of_signed 1)).

(** ** Stream insertion and the signed formatter *)

(** The flags of a stream: those of [fmtflags] above, [showpos] and the
    three bits of [adjustfield]. *)
Record ios_flags : Type := {
  io_fmt : fmtflags;
  io_showpos : bool;
  io_left : bool;
  io_internal : bool;
  io_right : bool
}.

(** [(flags & adjustfield) == left] and [== internal]. *)
Definition adjust_is_left (f : ios_flags) : bool :=
  io_left f && negb (io_internal f) && negb (io_right f).

Definition adjust_is_internal (f : ios_flags) : bool :=
  io_internal f && negb (io_left f) && negb (io_right f).

(** [(flags & basefield) == dec || (flags & basefield) == fmtflags()]. *)
Definition print_as_decimal (f : fmtflags) : bool :=
  (f_dec f && negb (f_oct f) && negb (f_hex f))
  || (negb (f_dec f) && negb (f_oct f) && negb (f_hex f)).

(** The stream an [operator<<] writes to. *)
Record ostream : Type := {
  o_flags : ios_flags;
  o_fill : ascii;
  o_width : Z;
  o_buf : list ascii
}.

(** [rep.insert(pos, n, c)]: [std::out_of_range] when [pos] is beyond the
    end.  The model puts no bound on the length of a string. *)
Definition string_insert (pos n : nat) (c : ascii) (rep : list ascii)
  : option (list ascii) :=
  if (List.length rep <? pos)%nat then None
  else Some (firstn pos rep ++ repeat c n ++ skipn pos rep).

(** The padding of both [operator<<]: [width] is a [std::streamsize],
    compared after the cast to [size_t]. *)
Definition pad_count (width : Z) (rep : list ascii) : option nat :=
  if Z.of_nat (List.length rep) <? U64.wrap width
  then Some (Z.to_nat (U64.wrap (width - Z.of_nat (List.length rep))))
  else None.

(** [operator<<(std::ostream&, uint128_t)]. *)
Definition insert_uint128 (p : clz_path) (os : ostream) (v : uint128_t)
  : option ostream :=
  let flags := o_flags os in
  rep <- ToFormattedString p v (io_fmt flags) ;;
  let rep := list_ascii_of_string rep in
  let width := o_width os in
  rep <-
    match pad_count width rep with
    | Some n =>
        if adjust_is_left flags then Some (rep ++ repeat (o_fill os) n)
        else if adjust_is_internal flags
                && f_showbase (io_fmt flags)
                && basefield_is_hex (io_fmt flags)
                && ne128 v (uint128_of_signed 0)
        then string_insert 2 n (o_fill os) rep
        else string_insert 0 n (o_fill os) rep
    | None => Some rep
    end ;;
  Some {| o_flags := flags; o_fill := o_fill os; o_width := 0;
          o_buf := o_buf os ++ rep |}.

(** [int128_t::ToFormattedString]. *)
Definition IToFormattedString (p : clz_path) (v : int128_t) (flags : ios_flags)
  : option string :=
  let print_as_decimal := print_as_decimal (io_fmt flags) in
  let rep :=
    if print_as_decimal then
      if Int128High64 v <? 0 then "-"%string
      else if io_showpos flags then "+"%string
      else ""%string
    else ""%string in
  s <- ToFormattedString p
         (if print_as_decimal then UnsignedAbsoluteValue v
          else uint128_of_int128 v)
         (io_fmt flags) ;;
  Some (rep ++ s)%string.

(** [int128_t::ToString]: no flag is set. *)
Definition IToString (p : clz_path) (v : int128_t) : option string :=
  IToFormattedString p v
    {| io_fmt := fmtflags_none; io_showpos := false; io_left := false;
       io_internal := false; io_right := false |}.

(** [rep[0]]: the terminating NUL on an empty string. *)
Definition first_char (rep : list ascii) : ascii := hd zero rep.

(** [operator<<(std::ostream&, int128_t)]; [v != 0] is modelled from the
    spec as above. *)
Definition insert_int128 (p : clz_path) (os : ostream) (v : int128_t)
  : option ostream :=
  let flags := o_flags os in
  rep <- IToFormattedString p v flags ;;
  let rep := list_ascii_of_string rep in
  let width := o_width os in
  rep <-
    match pad_count width rep with
    | Some n =>
        let print_as_decimal := print_as_decimal (io_fmt flags) in
        if adjust_is_left flags then Some (rep ++ repeat (o_fill os) n)
        else if adjust_is_internal flags then
          if print_as_decimal
             && (Ascii.eqb (first_char rep) "+"%char
                 || Ascii.eqb (first_char rep) "-"%char)
          then string_insert 1 n (o_fill os) rep
          else if basefield_is_hex (io_fmt flags)
                  && f_showbase (io_fmt flags)
                  && negb (eq_i128 v (int128_of_signed 0))
          then string_insert 2 n (o_fill os) rep
          else string_insert 0 n (o_fill os) rep
        else string_insert 0 n (o_fill os) rep
    | None => Some rep
    end ;;
  Some {| o_flags := flags; o_fill := o_fill os; o_width := 0;
          o_buf := o_buf os ++ rep |}.

(** Streams for the tests: no text yet, the given flags, fill character
    and width. *)
Definition ostream_with (fl : ios_flags) (c : ascii) (w : Z) : ostream :=
  {| o_flags := fl; o_fill := c; o_width := w; o_buf := [] |}.

Definition ios_left_dec : ios_flags :=
  {| io_fmt := ios_dec; io_showpos := false; io_left := true;
     io_internal := false; io_right := false |}.

Definition ios_internal_hex : ios_flags :=
  {| io_fmt := {| f_dec := false; f_oct := false; f_hex := true;
                  f_showbase := true; f_uppercase := false |};
     io_showpos := false; io_left := false; io_internal := true;
     io_right := false |}.

Definition ios_internal_dec : ios_flags :=
  {| io_fmt := ios_dec; io_showpos := true; io_left := false;
     io_internal := true; io_right := false |}.

(** The width [div_base_log] of the [switch], as a number of digits. *)
Definition chunk_width (f : fmtflags) : nat :=
  if basefield_is_hex f then 15
  else if basefield_is_oct f then 21
  else 19.

(** The digits of the three chunks of [V] in base [b]: the first
    nonzero chunk as a numeral, every later one on exactly [k] digits. *)
Definition chunked_digits (b : Z) (k : nat) (V : Z) : list Z :=
  let D := b ^ Z.of_nat k in
  let high := V / D / D in
  let mid := (V / D) mod D in
  let low := V mod D in
  if negb (high =? 0) then
    numeral b 64 high ++ fixed_digits b k mid ++ fixed_digits b k low
  else if negb (mid =? 0) then
    numeral b 64 mid ++ fixed_digits b k low
  else numeral b 64 low.


(** ** Tests on concrete values *)

Example ToString_two_pow_64 :
  ToString Fallback (MakeUint128 1 0) = Some "18446744073709551616"%string.
Proof. vm_compute. reflexivity. Qed.

Example ToString_max :
  ToString GnuC Uint128Max
  = Some "340282366920938463463374607431768211455"%string.
Proof. vm_compute. reflexivity. Qed.

Example ToFormattedString_hex_showbase_upper :
  ToFormattedString Fallback (uint128_of_signed 255)
    {| f_dec := false; f_oct := false; f_hex := true;
       f_showbase := true; f_uppercase := true |}
  = Some "0XFF"%string.
Proof. vm_compute. reflexivity. Qed.

Example DivMod_two_pow_120_by_8 :
  DivMod Fallback (MakeUint128 (2 ^ 56) 0) (uint128_of_signed 8)
  = Some (MakeUint128 (2 ^ 53) 0, MakeUint128 0 0).
Proof. vm_compute. reflexivity. Qed.

Example IDivMod_neg7_by_2 :
  IDivMod Fallback (int128_of_signed (-7)) (int128_of_signed 2)
  = Some (int128_of_signed (-3), int128_of_signed (-1)).
Proof. vm_compute. reflexivity. Qed.

Example IDivMod_min_by_minus_one :
  IDivMod Fallback Int128Min (int128_of_signed (-1)) = None.
Proof. vm_compute. reflexivity. Qed.

Example mul128_wraps :
  mul128 Uint128Max Uint128Max = MakeUint128 0 1.
Proof. vm_compute. reflexivity. Qed.

(** * Properties *)

Ltac Zify.zify_post_hook ::= Z.div_mod_to_equations.

(** ** Limbs and values *)

(** Unfolds a 128-bit operation down to limb arithmetic. *)
Ltac limbs :=
  unfold wf128, wfi128, value, svalue, U64.in_range, U64.add, U64.sub,
    U64.mul, U64.not, U64.wrap, U64.max, U64.modulus in *;
  cbn [Uint128High64 Uint128Low64 Int128High64 Int128Low64] in *.

Lemma wrap_range (x : Z) : U64.in_range (U64.wrap x).
Proof. limbs. lia. Qed.

Lemma wrap_small (x : Z) : U64.in_range x -> U64.wrap x = x.
Proof. limbs. intros. apply Z.mod_small. lia. Qed.

Lemma value_range (v : uint128_t) : wf128 v -> 0 <= value v < 2 ^ 128.
Proof. destruct v. limbs. lia. Qed.

Lemma value_inj (a b : uint128_t) :
  wf128 a -> wf128 b -> value a = value b -> a = b.
Proof.
  destruct a as [ha la], b as [hb lb]. limbs. intros Ha Hb E.
  assert (ha = hb) by lia. assert (la = lb) by lia. congruence.
Qed.

Lemma value_limbs (v : uint128_t) :
  wf128 v ->
  Uint128High64 v = value v / 2 ^ 64 /\ Uint128Low64 v = value v mod 2 ^ 64.
Proof. destruct v. limbs. lia. Qed.

Lemma wf_of_signed (v : Z) : wf128 (uint128_of_signed v).
Proof. unfold uint128_of_signed. limbs. destruct (v <? 0); lia. Qed.

Lemma value_of_signed (v : Z) :
  - 2 ^ 63 <= v < 2 ^ 63 -> value (uint128_of_signed v) = v mod 2 ^ 128.
Proof.
  unfold uint128_of_signed. limbs. intros.
  destruct (Z.ltb_spec v 0); lia.
Qed.

Lemma value_of_small (v : Z) :
  0 <= v < 2 ^ 63 -> value (uint128_of_signed v) = v.
Proof.
  unfold uint128_of_signed. limbs. intros.
  destruct (Z.ltb_spec v 0); lia.
Qed.

(** *** Order *)

Lemma eq128_value (a b : uint128_t) :
  wf128 a -> wf128 b -> eq128 a b = (value a =? value b).
Proof.
  destruct a as [ha la], b as [hb lb]. unfold eq128. limbs. intros.
  destruct (Z.eqb_spec la lb), (Z.eqb_spec ha hb),
    (Z.eqb_spec (ha * 2 ^ 64 + la) (hb * 2 ^ 64 + lb)); simpl; try reflexivity; lia.
Qed.

Lemma eq128_eq (a b : uint128_t) : eq128 a b = true <-> a = b.
Proof.
  destruct a as [ha la], b as [hb lb]. unfold eq128. limbs.
  rewrite andb_true_iff, !Z.eqb_eq. split.
  - intros [-> ->]. reflexivity.
  - intros E. injection E. auto.
Qed.

Lemma lt128_value (a b : uint128_t) :
  wf128 a -> wf128 b -> lt128 a b = (value a <? value b).
Proof.
  destruct a as [ha la], b as [hb lb]. unfold lt128. limbs. intros.
  destruct (Z.eqb_spec ha hb), (Z.ltb_spec la lb), (Z.ltb_spec ha hb),
    (Z.ltb_spec (ha * 2 ^ 64 + la) (hb * 2 ^ 64 + lb)); try reflexivity; lia.
Qed.

(** *** Addition, subtraction, negation *)

Lemma wf_add128 (a b : uint128_t) : wf128 (add128 a b).
Proof.
  unfold add128. cbn [Uint128High64 Uint128Low64].
  destruct (_ <? _); split; apply wrap_range.
Qed.

Lemma value_add128 (a b : uint128_t) :
  wf128 a -> wf128 b ->
  value (add128 a b) = (value a + value b) mod 2 ^ 128.
Proof.
  destruct a as [ha la], b as [hb lb]. unfold add128. limbs.
  intros [? ?] [? ?].
  destruct (Z.ltb_spec ((la + lb) mod 2 ^ 64) la); limbs; lia.
Qed.

Lemma wf_sub128 (a b : uint128_t) : wf128 (sub128 a b).
Proof.
  unfold sub128. cbn [Uint128High64 Uint128Low64].
  destruct (_ <? _); split; apply wrap_range.
Qed.

Lemma value_sub128 (a b : uint128_t) :
  wf128 a -> wf128 b ->
  value (sub128 a b) = (value a - value b) mod 2 ^ 128.
Proof.
  destruct a as [ha la], b as [hb lb]. unfold sub128. limbs.
  intros [? ?] [? ?].
  destruct (Z.ltb_spec la lb); limbs; lia.
Qed.

Lemma wf_neg128 (a : uint128_t) : wf128 (neg128 a).
Proof.
  unfold neg128. cbn zeta.
  destruct (_ =? _); split; apply wrap_range.
Qed.

Lemma value_neg128 (a : uint128_t) :
  wf128 a -> value (neg128 a) = (2 ^ 128 - value a) mod 2 ^ 128.
Proof.
  destruct a as [ha la]. unfold neg128. limbs. intros [? ?].
  rewrite !Z.lnot_eq_pred_opp. unfold Z.pred.
  destruct (_ =? _) eqn:E;
    [apply Z.eqb_eq in E | apply Z.eqb_neq in E]; limbs; lia.
Qed.

(** *** Shifts *)

Lemma lor_disjoint (a b k : Z) :
  0 <= k -> 0 <= b < 2 ^ k -> Z.lor (a * 2 ^ k) b = a * 2 ^ k + b.
Proof.
  intros Hk Hb.
  rewrite <- (Z.add_lor_land (a * 2 ^ k) b).
  replace (Z.land (a * 2 ^ k) b) with 0; [lia|].
  symmetry. apply Z.bits_inj'. intros n Hn.
  rewrite Z.land_spec, Z.bits_0.
  destruct (Z.lt_ge_cases n k) as [Hlt | Hge].
  - rewrite Z.mul_pow2_bits_low by lia. reflexivity.
  - replace b with (b mod 2 ^ k) by (apply Z.mod_small; lia).
    rewrite Z.mod_pow2_bits_high by lia. apply andb_false_r.
Qed.

Lemma pow2_split (k : Z) : 0 <= k <= 64 -> 2 ^ k * 2 ^ (64 - k) = 2 ^ 64.
Proof. intros. rewrite <- Z.pow_add_r by lia. f_equal. lia. Qed.

(** The two halves of a limb around bit [64 - k], moved by [k]. *)
Lemma shl_limb (x k : Z) :
  0 <= k <= 64 ->
  U64.shl x k = (x mod 2 ^ (64 - k)) * 2 ^ k.
Proof.
  intros. unfold U64.shl, U64.wrap, U64.modulus.
  rewrite Z.shiftl_mul_pow2 by lia.
  rewrite <- (pow2_split k) by lia.
  rewrite (Z.mul_comm (2 ^ k)).
  apply Z.mul_mod_distr_r; apply Z.pow_nonzero; lia.
Qed.

Lemma shr_limb (x k : Z) : 0 <= k -> U64.shr x k = x / 2 ^ k.
Proof. intros. unfold U64.shr. apply Z.shiftr_div_pow2. lia. Qed.

Lemma shr_limb_bound (x k : Z) :
  0 <= k <= 64 -> 0 <= x < 2 ^ 64 -> 0 <= x / 2 ^ (64 - k) < 2 ^ k.
Proof.
  intros Hk Hx. pose proof (pow2_split k Hk) as E.
  assert (0 < 2 ^ k) by (apply Z.pow_pos_nonneg; lia).
  assert (0 < 2 ^ (64 - k)) by (apply Z.pow_pos_nonneg; lia).
  split.
  - apply Z.div_pos; lia.
  - apply Z.div_lt_upper_bound; lia.
Qed.

Lemma shr_limb_bound' (x k : Z) :
  0 <= k <= 64 -> 0 <= x < 2 ^ 64 -> 0 <= x / 2 ^ k < 2 ^ (64 - k).
Proof.
  intros Hk Hx. pose proof (shr_limb_bound x (64 - k) ltac:(lia) Hx) as B.
  replace (64 - (64 - k)) with k in B by lia. exact B.
Qed.

Lemma wf_shl128 (v : uint128_t) (k : Z) :
  wf128 v -> 0 <= k < 128 -> wf128 (shl128 v k).
Proof.
  intros [Hh Hl] Hk. unfold shl128.
  destruct (Z.ltb_spec k 64); [destruct (Z.eqb_spec k 0)|]; cbn [negb].
  - split; assumption.
  - split; cbn [Uint128High64 Uint128Low64]; [|apply wrap_range].
    rewrite shl_limb, shr_limb by lia.
    rewrite lor_disjoint by (try apply shr_limb_bound; try lia; exact Hh || exact Hl).
    unfold U64.in_range, U64.modulus in *.
    pose proof (shr_limb_bound (Uint128Low64 v) k ltac:(lia) Hl).
    pose proof (pow2_split k ltac:(lia)).
    assert (0 < 2 ^ k) by (apply Z.pow_pos_nonneg; lia).
    assert (0 < 2 ^ (64 - k)) by (apply Z.pow_pos_nonneg; lia).
    pose proof (Z.mod_pos_bound (Uint128High64 v) (2 ^ (64 - k)) ltac:(lia)).
    nia.
  - split; cbn [Uint128High64 Uint128Low64]; [apply wrap_range|].
    unfold U64.in_range, U64.modulus. lia.
Qed.

Lemma value_shl128 (v : uint128_t) (k : Z) :
  wf128 v -> 0 <= k < 128 ->
  value (shl128 v k) = (value v * 2 ^ k) mod 2 ^ 128.
Proof.
  intros [Hh Hl] Hk. unfold shl128.
  destruct (Z.ltb_spec k 64); [destruct (Z.eqb_spec k 0)|]; cbn [negb].
  - subst k. rewrite Z.pow_0_r, Z.mul_1_r. symmetry. apply Z.mod_small.
    apply value_range. split; assumption.
  - destruct v as [hi lo]. unfold value. cbn [Uint128High64 Uint128Low64] in *.
    unfold U64.in_range, U64.modulus in *.
    rewrite !shl_limb, shr_limb by lia.
    rewrite lor_disjoint by (try apply shr_limb_bound; lia).
    pose proof (pow2_split k ltac:(lia)) as E.
    assert (HP : 0 < 2 ^ k) by (apply Z.pow_pos_nonneg; lia).
    assert (HQ : 0 < 2 ^ (64 - k)) by (apply Z.pow_pos_nonneg; lia).
    change (2 ^ 128) with (2 ^ 64 * 2 ^ 64).
    revert E HP HQ Hh Hl.
    generalize (2 ^ k) (2 ^ (64 - k)) (2 ^ 64). intros P Q M E HP HQ Hh Hl.
    subst M.
    pose proof (Z.div_mod hi Q ltac:(lia)) as Dh.
    pose proof (Z.mod_pos_bound hi Q HQ) as Bh.
    pose proof (Z.div_mod lo Q ltac:(lia)) as Dl.
    pose proof (Z.mod_pos_bound lo Q HQ) as Bl.
    assert (0 <= lo / Q < P) by (split; [apply Z.div_pos | apply Z.div_lt_upper_bound]; nia).
    apply Z.mod_unique_pos with (q := hi / Q).
    + split; [nia|].
      assert (hi mod Q * P + lo / Q <= P * Q - 1) by nia.
      assert (lo mod Q * P <= P * Q - P) by nia.
      nia.
    + set (h1 := hi / Q) in *. set (h0 := hi mod Q) in *.
      set (l1 := lo / Q) in *. set (l0 := lo mod Q) in *.
      rewrite Dh, Dl. ring.
  - destruct v as [hi lo]. unfold value. cbn [Uint128High64 Uint128Low64] in *.
    unfold U64.in_range, U64.shl, U64.wrap, U64.modulus in *.
    rewrite Z.shiftl_mul_pow2 by lia.
    replace (2 ^ k) with (2 ^ (k - 64) * 2 ^ 64)
      by (rewrite <- Z.pow_add_r by lia; f_equal; lia).
    change (2 ^ 128) with (2 ^ 64 * 2 ^ 64).
    assert (0 < 2 ^ (k - 64)) by (apply Z.pow_pos_nonneg; lia).
    generalize dependent (2 ^ (k - 64)). intros T HT.
    rewrite Z.add_0_r.
    rewrite <- Z.mul_mod_distr_r by lia.
    replace ((hi * 2 ^ 64 + lo) * (T * 2 ^ 64))
      with (lo * T * 2 ^ 64 + hi * T * (2 ^ 64 * 2 ^ 64)) by ring.
    rewrite Z.mod_add by lia. reflexivity.
Qed.

Lemma wf_shr128 (v : uint128_t) (k : Z) :
  wf128 v -> 0 <= k < 128 -> wf128 (shr128 v k).
Proof.
  intros [Hh Hl] Hk. unfold shr128.
  assert (Hdiv : forall x j, 0 <= j -> U64.in_range x -> U64.in_range (x / 2 ^ j)).
  { intros x j Hj [Hx0 Hx1]. assert (0 < 2 ^ j) by (apply Z.pow_pos_nonneg; lia).
    split; [apply Z.div_pos; lia|]. apply Z.div_lt_upper_bound; [lia|].
    unfold U64.modulus in *. nia. }
  destruct (Z.ltb_spec k 64); [destruct (Z.eqb_spec k 0)|]; cbn [negb].
  - split; assumption.
  - split; cbn [Uint128High64 Uint128Low64].
    + rewrite shr_limb by lia. apply Hdiv; [lia | assumption].
    + rewrite shl_limb, shr_limb by lia.
      rewrite Z.lor_comm.
      replace (64 - (64 - k)) with k by lia.
      assert (Hb : 0 <= Uint128Low64 v / 2 ^ k < 2 ^ (64 - k)).
      { apply shr_limb_bound'; [lia | exact Hl]. }
      rewrite lor_disjoint by (try exact Hb; lia).
      unfold U64.in_range, U64.modulus in *.
      pose proof (pow2_split k ltac:(lia)).
      assert (0 < 2 ^ k) by (apply Z.pow_pos_nonneg; lia).
      assert (0 < 2 ^ (64 - k)) by (apply Z.pow_pos_nonneg; lia).
      pose proof (Z.mod_pos_bound (Uint128High64 v) (2 ^ k) ltac:(lia)).
      nia.
  - split; cbn [Uint128High64 Uint128Low64].
    + unfold U64.in_range, U64.modulus. lia.
    + rewrite shr_limb by lia. apply Hdiv; [lia | assumption].
Qed.

Lemma value_shr128 (v : uint128_t) (k : Z) :
  wf128 v -> 0 <= k < 128 ->
  value (shr128 v k) = value v / 2 ^ k.
Proof.
  intros [Hh Hl] Hk. unfold shr128.
  destruct (Z.ltb_spec k 64); [destruct (Z.eqb_spec k 0)|]; cbn [negb].
  - subst k. rewrite Z.pow_0_r, Z.div_1_r. reflexivity.
  - destruct v as [hi lo]. unfold value. cbn [Uint128High64 Uint128Low64] in *.
    unfold U64.in_range, U64.modulus in *.
    rewrite shl_limb, !shr_limb by lia.
    rewrite Z.lor_comm.
    replace (64 - (64 - k)) with k by lia.
    assert (Hb : 0 <= lo / 2 ^ k < 2 ^ (64 - k)).
    { apply shr_limb_bound'; [lia | exact Hl]. }
    rewrite lor_disjoint by (try exact Hb; lia).
    pose proof (pow2_split k ltac:(lia)) as E.
    assert (HP : 0 < 2 ^ k) by (apply Z.pow_pos_nonneg; lia).
    assert (HQ : 0 < 2 ^ (64 - k)) by (apply Z.pow_pos_nonneg; lia).
    revert E HP HQ Hh Hl Hb.
    generalize (2 ^ k) (2 ^ (64 - k)) (2 ^ 64). intros P Q M E HP HQ Hh Hl Hb.
    subst M.
    pose proof (Z.div_mod hi P ltac:(lia)) as Dh.
    pose proof (Z.mod_pos_bound hi P HP) as Bh.
    pose proof (Z.div_mod lo P ltac:(lia)) as Dl.
    pose proof (Z.mod_pos_bound lo P HP) as Bl.
    apply Z.div_unique_pos with (r := lo mod P); [lia|].
    set (h1 := hi / P) in *. set (h0 := hi mod P) in *.
    set (l1 := lo / P) in *. set (l0 := lo mod P) in *.
    rewrite Dh at 1. rewrite Dl at 1. ring.
  - destruct v as [hi lo]. unfold value. cbn [Uint128High64 Uint128Low64] in *.
    unfold U64.in_range, U64.modulus in *.
    rewrite shr_limb by lia.
    replace (2 ^ k) with (2 ^ 64 * 2 ^ (k - 64))
      by (rewrite <- Z.pow_add_r by lia; f_equal; lia).
    assert (0 < 2 ^ (k - 64)) by (apply Z.pow_pos_nonneg; lia).
    rewrite <- Z.div_div by lia.
    rewrite Z.div_add_l by lia.
    rewrite (Z.div_small lo) by lia. rewrite Z.add_0_r. reflexivity.
Qed.

(** *** Multiplication *)

Lemma mod_congr (n a b k : Z) : a = b + k * n -> a mod n = b mod n.
Proof. intros ->. apply Z_mod_plus_full. Qed.

Lemma wf_mul128 (a b : uint128_t) : wf128 (mul128 a b).
Proof. unfold mul128. cbn zeta. apply wf_add128. Qed.

Lemma half_limb (x : Z) :
  0 <= x < 2 ^ 64 ->
  x = U64.shr x 32 * 2 ^ 32 + Z.land x 0xffffffff /\
  0 <= U64.shr x 32 < 2 ^ 32 /\ 0 <= Z.land x 0xffffffff < 2 ^ 32.
Proof.
  intros Hx. rewrite shr_limb by lia.
  change 0xffffffff with (Z.ones 32). rewrite Z.land_ones by lia.
  lia.
Qed.

Lemma value_mul128 (a b : uint128_t) :
  wf128 a -> wf128 b ->
  value (mul128 a b) = (value a * value b) mod 2 ^ 128.
Proof.
  intros Ha Hb. unfold mul128. cbn zeta.
  destruct a as [ha la], b as [hb lb].
  cbn [Uint128High64 Uint128Low64].
  destruct Ha as [Hha Hla], Hb as [Hhb Hlb].
  cbn [Uint128High64 Uint128Low64] in *. unfold U64.in_range, U64.modulus in *.
  destruct (half_limb la Hla) as (Ea & Ba32 & Ba00).
  destruct (half_limb lb Hlb) as (Eb & Bb32 & Bb00).
  set (a32 := U64.shr la 32) in *. set (a00 := Z.land la 0xffffffff) in *.
  set (b32 := U64.shr lb 32) in *. set (b00 := Z.land lb 0xffffffff) in *.
  assert (Hp : forall x y, 0 <= x < 2 ^ 32 -> 0 <= y < 2 ^ 32 ->
                           0 <= x * y < 2 ^ 64) by (intros; nia).
  assert (Hm : forall x y, 0 <= x < 2 ^ 32 -> 0 <= y < 2 ^ 32 ->
                           U64.mul x y = x * y).
  { intros x y Hx Hy. apply wrap_small. apply Hp; assumption. }
  rewrite (Hm a32 b32), (Hm a00 b00), (Hm a32 b00), (Hm a00 b32) by assumption.
  set (r0 := MakeUint128 _ (a00 * b00)).
  assert (Wr0 : wf128 r0).
  { split; cbn [r0 Uint128High64 Uint128Low64]; [apply wrap_range|].
    apply Hp; assumption. }
  assert (Wt : forall x, 0 <= x < 2 ^ 64 ->
             wf128 (shl128 (uint128_of_unsigned x) 32) /\
             value (shl128 (uint128_of_unsigned x) 32) = x * 2 ^ 32).
  { intros x Hx.
    assert (W : wf128 (uint128_of_unsigned x))
      by (split; cbn; unfold U64.in_range, U64.modulus; lia).
    split; [apply wf_shl128; [exact W | lia]|].
    rewrite value_shl128 by (try exact W; lia).
    unfold value, uint128_of_unsigned. cbn [Uint128High64 Uint128Low64].
    apply Z.mod_small. lia. }
  destruct (Wt (a32 * b00) (Hp _ _ Ba32 Bb00)) as [W1 V1].
  destruct (Wt (a00 * b32) (Hp _ _ Ba00 Bb32)) as [W2 V2].
  rewrite value_add128 by (try apply wf_add128; assumption).
  rewrite value_add128 by assumption.
  rewrite Zplus_mod_idemp_l, V1, V2.
  unfold value. cbn [r0 Uint128High64 Uint128Low64].
  set (X := ha * lb + la * hb + a32 * b32).
  assert (EH : U64.add (U64.add (U64.mul ha lb) (U64.mul la hb)) (a32 * b32)
               = X - 2 ^ 64 * (X / 2 ^ 64)).
  { unfold U64.add, U64.mul, U64.wrap, U64.modulus.
    rewrite <- Z.add_mod by lia.
    rewrite Zplus_mod_idemp_l. fold X. apply Z.mod_eq. lia. }
  rewrite EH.
  apply mod_congr with (k := - (ha * hb + X / 2 ^ 64)).
  generalize (X / 2 ^ 64). intros c. unfold X.
  clear - Ea Eb. clearbody a32 a00 b32 b00. subst la lb.
  change (2 ^ 128) with (2 ^ 64 * 2 ^ 64).
  change (2 ^ 64) with (2 ^ 32 * 2 ^ 32).
  ring.
Qed.

(** ** Leading zeros *)

Lemma bit_length_shiftr (n k : Z) :
  0 <= k -> 0 <= n -> Z.shiftr n k <> 0 ->
  bit_length (Z.shiftr n k) = bit_length n - k.
Proof.
  intros Hk Hn Hs. unfold bit_length.
  assert (n <> 0) by (intros ->; apply Hs, Z.shiftr_0_l).
  destruct (Z.eqb_spec (Z.shiftr n k) 0); [contradiction|].
  destruct (Z.eqb_spec n 0); [contradiction|].
  rewrite Z.log2_shiftr by lia.
  assert (~ Z.log2 n < k).
  { intros Hlt. apply Hs. apply Z.shiftr_eq_0; lia. }
  lia.
Qed.

Lemma bit_length_bound (n w : Z) :
  0 <= w -> 0 <= n -> (n < 2 ^ w <-> bit_length n <= w).
Proof.
  intros Hw Hn. unfold bit_length.
  destruct (Z.eqb_spec n 0) as [-> | Hnz].
  - split; intros; [lia | apply Z.pow_pos_nonneg; lia].
  - rewrite Z.log2_lt_pow2 by lia. lia.
Qed.

(** What one step of the fallback keeps: [zeroes - bit_length n]. *)
Lemma clz_step_spec (k zeroes n : Z) :
  0 < k -> 0 <= n < 2 ^ (2 * k) ->
  let '(zeroes', n') := clz_step k (zeroes, n) in
  0 <= n' < 2 ^ k /\ zeroes' - bit_length n' = zeroes - bit_length n.
Proof.
  intros Hk Hn. unfold clz_step, U64.shr.
  destruct (Z.eqb_spec (Z.shiftr n k) 0) as [E | E]; cbn [negb].
  - split; [|reflexivity]. split; [lia|].
    apply Z.shiftr_eq_0_iff in E. destruct E as [-> | [Hpos Hlog]].
    + apply Z.pow_pos_nonneg; lia.
    + apply Z.log2_lt_pow2; lia.
  - rewrite bit_length_shiftr by lia. split; [|lia].
    rewrite Z.shiftr_div_pow2 by lia.
    assert (0 < 2 ^ k) by (apply Z.pow_pos_nonneg; lia).
    split; [apply Z.div_pos; lia|].
    apply Z.div_lt_upper_bound; [lia|].
    rewrite <- Z.pow_add_r by lia. replace (k + k) with (2 * k) by lia. lia.
Qed.

Lemma clz_nibble_table_spec (n : Z) :
  0 <= n < 2 ^ 4 ->
  nth_error clz_nibble_table (Z.to_nat n) = Some (4 - bit_length n).
Proof.
  intros Hn. change (2 ^ 4) with 16 in Hn.
  assert (Hm : (Z.to_nat n < 16)%nat) by lia.
  rewrite <- (Z2Nat.id n) at 2 by lia.
  generalize dependent (Z.to_nat n). clear Hn. intros m Hm.
  do 16 (destruct m as [| m]; [reflexivity|]). lia.
Qed.

Lemma CountLeadingZeros64Slow_spec (n : Z) :
  U64.in_range n -> CountLeadingZeros64Slow n = Some (64 - bit_length n).
Proof.
  intros Hn. unfold U64.in_range, U64.modulus in Hn.
  unfold CountLeadingZeros64Slow.
  pose proof (clz_step_spec 32 60 n ltac:(lia) Hn) as S1.
  destruct (clz_step 32 (60, n)) as [z1 n1]. destruct S1 as [B1 E1].
  pose proof (clz_step_spec 16 z1 n1 ltac:(lia) B1) as S2.
  destruct (clz_step 16 (z1, n1)) as [z2 n2]. destruct S2 as [B2 E2].
  pose proof (clz_step_spec 8 z2 n2 ltac:(lia) B2) as S3.
  destruct (clz_step 8 (z2, n2)) as [z3 n3]. destruct S3 as [B3 E3].
  pose proof (clz_step_spec 4 z3 n3 ltac:(lia) B3) as S4.
  destruct (clz_step 4 (z3, n3)) as [z4 n4]. destruct S4 as [B4 E4].
  rewrite clz_nibble_table_spec by exact B4. cbn [bind].
  f_equal. lia.
Qed.

Lemma CountLeadingZeros64_spec (p : clz_path) (n : Z) :
  U64.in_range n -> CountLeadingZeros64 p n = Some (64 - bit_length n).
Proof.
  intros Hn. destruct p; cbn [CountLeadingZeros64].
  - unfold BitScanReverse, bit_length.
    destruct (n =? 0); f_equal; lia.
  - unfold U64.in_range, U64.modulus in Hn. unfold BitScanReverse, U64.shr.
    rewrite Z.shiftr_div_pow2 by lia.
    destruct (Z.eqb_spec (n / 2 ^ 32) 0) as [E | E]; cbn [negb].
    + assert (Hs : n < 2 ^ 32) by lia.
      rewrite (Z.mod_small n) by lia. unfold bit_length.
      destruct (n =? 0); f_equal; lia.
    + rewrite (Z.mod_small (n / 2 ^ 32)) by lia.
      destruct (Z.eqb_spec (n / 2 ^ 32) 0); [contradiction|].
      pose proof (bit_length_shiftr n 32 ltac:(lia) ltac:(lia)) as Hb.
      rewrite Z.shiftr_div_pow2 in Hb by lia. specialize (Hb E).
      unfold bit_length in Hb.
      destruct (Z.eqb_spec (n / 2 ^ 32) 0); [contradiction|].
      unfold bit_length. destruct (Z.eqb_spec n 0); f_equal; lia.
  - unfold builtin_clzll, bit_length.
    destruct (n =? 0); f_equal; lia.
  - apply CountLeadingZeros64Slow_spec, Hn.
Qed.

Lemma Fls128_spec (p : clz_path) (n : uint128_t) :
  wf128 n -> value n <> 0 -> Fls128 p n = Some (Z.log2 (value n)).
Proof.
  destruct n as [hi lo]. intros [Hh Hl] Hnz. unfold Fls128, value in *.
  cbn [Uint128High64 Uint128Low64] in *.
  rewrite !CountLeadingZeros64_spec by assumption.
  unfold U64.in_range, U64.modulus in *. unfold bit_length.
  destruct (Z.eqb_spec hi 0) as [-> | Hhz]; cbn [negb bind].
  - destruct (Z.eqb_spec lo 0) as [-> | Hlz]; [lia|].
    cbn [bind]. f_equal. rewrite Z.mul_0_l, Z.add_0_l. lia.
  - f_equal.
    assert (E : Z.log2 (hi * 2 ^ 64 + lo) = 64 + Z.log2 hi).
    { apply Z.log2_unique; [pose proof (Z.log2_nonneg hi); lia|].
      pose proof (Z.log2_spec hi ltac:(lia)) as [L U].
      unfold Z.succ in *.
      rewrite !Z.pow_add_r by (pose proof (Z.log2_nonneg hi); lia).
      rewrite Z.pow_add_r in U by (pose proof (Z.log2_nonneg hi); lia).
      change (2 ^ 1) with 2 in *. lia. }
    lia.
Qed.

(** ** Long division *)

Lemma wf_or128_one (x : uint128_t) :
  wf128 x -> Z.even (Uint128Low64 x) = true ->
  wf128 (or128 x (uint128_of_signed 1)) /\
  value (or128 x (uint128_of_signed 1)) = value x + 1.
Proof.
  destruct x as [hi lo]. intros [Hh Hl] Hev.
  cbn [Uint128High64 Uint128Low64] in *.
  unfold or128, uint128_of_signed, value, wf128.
  cbn [Uint128High64 Uint128Low64 Z.ltb Z.compare].
  change (U64.wrap 1) with 1. rewrite Z.lor_0_r.
  apply Zeven_bool_iff, Zeven_ex in Hev. destruct Hev as [m ->].
  replace (2 * m) with (m * 2 ^ 1) in * by lia.
  rewrite lor_disjoint by lia.
  unfold U64.in_range, U64.modulus in *. lia.
Qed.

Lemma shl128_one (q : uint128_t) :
  wf128 q -> 2 * value q < 2 ^ 128 ->
  wf128 (shl128 q 1) /\ value (shl128 q 1) = 2 * value q /\
  Z.even (Uint128Low64 (shl128 q 1)) = true.
Proof.
  intros Hq Hb. split; [apply wf_shl128; [assumption | lia]|]. split.
  - rewrite value_shl128 by (try assumption; lia).
    pose proof (value_range q Hq). rewrite Z.mod_small; lia.
  - unfold shl128. cbn. rewrite shl_limb by lia.
    rewrite Z.mul_comm. change (2 ^ 1) with 2. apply Z.even_mul.
Qed.

(** The loop keeps [dividend + quotient * denominator * 2] and ends with
    the quotient and remainder of the division by [b]. *)
Lemma DivMod_loop_spec (b : Z) (Hb : 0 < b) (turns : nat) :
  forall dividend denominator quotient,
    wf128 dividend -> wf128 denominator -> wf128 quotient ->
    (turns <> O -> value denominator = b * 2 ^ (Z.of_nat turns - 1)) ->
    value dividend < b * 2 ^ Z.of_nat turns ->
    value quotient * 2 ^ Z.of_nat turns + value dividend / b < 2 ^ 128 ->
    let '(dividend', _, quotient') :=
      DivMod_loop turns (dividend, denominator, quotient) in
    wf128 dividend' /\ wf128 quotient' /\
    value quotient' = value quotient * 2 ^ Z.of_nat turns + value dividend / b /\
    value dividend' = value dividend mod b.
Proof.
  induction turns as [| t IH]; intros dividend denominator quotient Wd Wn Wq Hden Hr Hq.
  - cbn [DivMod_loop]. change (Z.of_nat 0) with 0 in *.
    rewrite Z.pow_0_r, Z.mul_1_r in *.
    pose proof (value_range dividend Wd).
    rewrite Z.div_small, Z.mod_small by lia.
    split; [|split; [|split]]; try assumption; lia.
  - cbn [DivMod_loop]. unfold DivMod_step.
    specialize (Hden ltac:(discriminate)).
    replace (Z.of_nat (S t) - 1) with (Z.of_nat t) in Hden by lia.
    rewrite Nat2Z.inj_succ in *. unfold Z.succ in *.
    rewrite Z.pow_add_r in * by lia. change (2 ^ 1) with 2 in *.
    assert (HT : 0 < 2 ^ Z.of_nat t) by (apply Z.pow_pos_nonneg; lia).
    pose proof (value_range dividend Wd) as Rd.
    pose proof (value_range quotient Wq) as Rq.
    assert (Hdq : 0 <= value dividend / b) by (apply Z.div_pos; lia).
    destruct (shl128_one quotient Wq ltac:(nia)) as (Wq1 & Vq1 & Eq1).
    assert (Wn1 : wf128 (shr128 denominator 1)) by (apply wf_shr128; [assumption | lia]).
    assert (Vn1 : t <> O -> value (shr128 denominator 1) = b * 2 ^ (Z.of_nat t - 1)).
    { intros Ht. rewrite value_shr128 by (try assumption; lia). rewrite Hden.
      replace (Z.of_nat t) with (Z.of_nat t - 1 + 1) at 1 by lia.
      rewrite Z.pow_add_r by lia. change (2 ^ 1) with 2.
      rewrite Z.mul_assoc. apply Z.div_mul. lia. }
    unfold ge128. rewrite lt128_value by assumption. rewrite Hden.
    destruct (Z.ltb_spec (value dividend) (b * 2 ^ Z.of_nat t)) as [Hlt | Hge];
      cbn [negb].
    + specialize (IH dividend (shr128 denominator 1) (shl128 quotient 1)
                     Wd Wn1 Wq1 Vn1 Hlt).
      rewrite Vq1 in IH. specialize (IH ltac:(nia)).
      destruct (DivMod_loop t _) as [[d' n'] q'].
      destruct IH as (? & ? & -> & ->).
      split; [|split; [|split]]; try assumption; [ring | reflexivity].
    + destruct (wf_or128_one _ Wq1 Eq1) as [Wq2 Vq2]. rewrite Vq1 in Vq2.
      assert (Vs : value (sub128 dividend denominator)
                   = value dividend - b * 2 ^ Z.of_nat t).
      { rewrite value_sub128 by assumption. rewrite Hden.
        apply Z.mod_small. lia. }
      assert (Ediv : (value dividend - b * 2 ^ Z.of_nat t) / b
                     = value dividend / b - 2 ^ Z.of_nat t).
      { replace (value dividend - b * 2 ^ Z.of_nat t)
          with (value dividend + (- 2 ^ Z.of_nat t) * b) by ring.
        rewrite Z.div_add by lia. ring. }
      assert (Emod : (value dividend - b * 2 ^ Z.of_nat t) mod b
                     = value dividend mod b).
      { replace (value dividend - b * 2 ^ Z.of_nat t)
          with (value dividend + (- 2 ^ Z.of_nat t) * b) by ring.
        apply Z.mod_add. lia. }
      specialize (IH (sub128 dividend denominator) (shr128 denominator 1)
                     (or128 (shl128 quotient 1) (uint128_of_signed 1))
                     (wf_sub128 _ _) Wn1 Wq2 Vn1).
      rewrite Vs, Vq2, Ediv in IH.
      specialize (IH ltac:(lia) ltac:(nia)).
      destruct (DivMod_loop t _) as [[d' n'] q'].
      destruct IH as (? & ? & -> & ->).
      split; [|split; [|split]]; try assumption. ring.
Qed.

Lemma value_zero : value (uint128_of_signed 0) = 0.
Proof. reflexivity. Qed.

Lemma value_one : value (uint128_of_signed 1) = 1.
Proof. reflexivity. Qed.

(** [uint128_t::DivMod] computes the quotient and remainder of the
    values. *)
Lemma DivMod_spec (p : clz_path) (dividend divisor : uint128_t) :
  wf128 dividend -> wf128 divisor -> value divisor <> 0 ->
  exists q r,
    DivMod p dividend divisor = Some (q, r) /\
    wf128 q /\ wf128 r /\
    value q = value dividend / value divisor /\
    value r = value dividend mod value divisor.
Proof.
  intros Wa Wb Hnz. unfold DivMod.
  pose proof (value_range dividend Wa) as Ra.
  pose proof (value_range divisor Wb) as Rb.
  unfold ne128, gt128.
  rewrite (eq128_value divisor) by (try apply wf_of_signed; assumption).
  rewrite value_zero.
  destruct (Z.eqb_spec (value divisor) 0) as [E | _]; [contradiction|].
  cbn [negb].
  rewrite lt128_value, eq128_value by assumption.
  destruct (Z.ltb_spec (value dividend) (value divisor)) as [Hlt | Hge].
  { exists (uint128_of_signed 0), dividend. rewrite value_zero.
    rewrite Z.div_small, Z.mod_small by lia.
    split; [reflexivity|]. split; [apply wf_of_signed|].
    split; [assumption|]. split; reflexivity. }
  destruct (Z.eqb_spec (value divisor) (value dividend)) as [Heq | Hne].
  { exists (uint128_of_signed 1), (uint128_of_signed 0).
    rewrite value_zero, value_one, Heq.
    rewrite Z.div_same, Z.mod_same by lia.
    split; [reflexivity|]. split; [apply wf_of_signed|].
    split; [apply wf_of_signed|]. split; reflexivity. }
  rewrite !Fls128_spec by (try assumption; lia). cbn [bind].
  set (a := value dividend) in *. set (b := value divisor) in *.
  set (s := Z.log2 a - Z.log2 b).
  assert (Hs : 0 <= s) by (pose proof (Z.log2_le_mono b a); lia).
  pose proof (Z.log2_spec a ltac:(lia)) as [La Ua].
  pose proof (Z.log2_spec b ltac:(lia)) as [Lb Ub].
  pose proof (Z.log2_nonneg a) as Na. pose proof (Z.log2_nonneg b) as Nb.
  assert (Hla : Z.log2 a < 128) by (apply Z.log2_lt_pow2; lia).
  assert (HS : 0 < 2 ^ s) by (apply Z.pow_pos_nonneg; lia).
  assert (Esplit : 2 ^ Z.succ (Z.log2 a) = 2 * 2 ^ Z.log2 b * 2 ^ s).
  { unfold Z.succ. replace (Z.log2 a + 1) with (1 + Z.log2 b + s) by (unfold s; lia).
    rewrite !Z.pow_add_r by lia. reflexivity. }
  assert (Hle : 2 ^ Z.succ (Z.log2 a) <= 2 ^ 128)
    by (apply Z.pow_le_mono_r; lia).
  assert (Hfit : b * 2 ^ s < 2 ^ 128).
  { unfold Z.succ in *. rewrite Z.pow_add_r in Ub by lia.
    change (2 ^ 1) with 2 in Ub. nia. }
  assert (Wn : wf128 (shl128 divisor s)) by (apply wf_shl128; [assumption | lia]).
  assert (Vn : value (shl128 divisor s) = b * 2 ^ s).
  { rewrite value_shl128 by (try assumption; lia). fold b.
    apply Z.mod_small. nia. }
  pose proof (DivMod_loop_spec b ltac:(lia) (Z.to_nat (s + 1))
                dividend (shl128 divisor s) (uint128_of_signed 0)
                Wa Wn (wf_of_signed 0)) as L.
  rewrite Z2Nat.id in L by lia.
  replace (s + 1 - 1) with s in L by lia.
  specialize (L (fun _ => Vn)).
  rewrite value_zero, Z.mul_0_l, Z.add_0_l in L. fold a in L.
  rewrite Z.pow_add_r in L by lia. change (2 ^ 1) with 2 in L.
  specialize (L ltac:(nia)).
  assert (Hq : a / b < 2 ^ 128).
  { apply Z.div_lt_upper_bound; nia. }
  specialize (L Hq).
  destruct (DivMod_loop _ _) as [[d' n'] q'].
  destruct L as (Wd' & Wq' & Vq & Vd).
  exists q', d'. split; [reflexivity|]. repeat (split; [assumption|]). assumption.
Qed.

(** ** The signed view *)

Lemma land_sign_bit (v : Z) :
  0 <= v < 2 ^ 64 ->
  (Z.land v (Z.shiftl 1 63) =? 0) = (v <? 2 ^ 63).
Proof.
  intros Hv. change (Z.shiftl 1 63) with (2 ^ 63).
  destruct (Z.ltb_spec v (2 ^ 63)) as [Hlt | Hge].
  - apply Z.eqb_eq. apply Z.bits_inj'. intros n Hn.
    rewrite Z.land_spec, Z.bits_0, Z.pow2_bits_eqb by lia.
    destruct (Z.eqb_spec 63 n) as [<- | _]; [|apply andb_false_r].
    replace v with (v mod 2 ^ 63) by (apply Z.mod_small; lia).
    rewrite Z.mod_pow2_bits_high by lia. reflexivity.
  - apply Z.eqb_neq. intros E.
    assert (B : Z.testbit (Z.land v (2 ^ 63)) 63 = true).
    { rewrite Z.land_spec, Z.pow2_bits_eqb, Z.eqb_refl, andb_true_r by lia.
      apply Z.testbit_true; lia. }
    rewrite E, Z.bits_0 in B. discriminate.
Qed.

Lemma BitCastToSigned_spec (v : Z) :
  U64.in_range v ->
  BitCastToSigned v = if v <? 2 ^ 63 then v else v - 2 ^ 64.
Proof.
  unfold U64.in_range, U64.modulus. intros Hv. unfold BitCastToSigned.
  rewrite land_sign_bit by assumption.
  destruct (Z.ltb_spec v (2 ^ 63)); cbn [negb]; [reflexivity|].
  unfold U64.not, U64.wrap, U64.modulus. rewrite !Z.lnot_eq_pred_opp.
  unfold Z.pred. lia.
Qed.

Lemma uint128_to_int128_spec (x : uint128_t) :
  wf128 x ->
  wfi128 (uint128_to_int128 x) /\
  svalue (uint128_to_int128 x)
  = if value x <? 2 ^ 127 then value x else value x - 2 ^ 128.
Proof.
  destruct x as [hi lo]. intros [Hh Hl]. unfold uint128_to_int128.
  cbn [Uint128High64 Uint128Low64] in *.
  unfold wfi128, svalue, value. cbn [Uint128High64 Uint128Low64 Int128High64 Int128Low64].
  rewrite BitCastToSigned_spec by assumption.
  unfold U64.in_range, U64.modulus in *.
  destruct (Z.ltb_spec hi (2 ^ 63)), (Z.ltb_spec (hi * 2 ^ 64 + lo) (2 ^ 127)); lia.
Qed.

Lemma uint128_of_int128_spec (s : int128_t) :
  wfi128 s ->
  wf128 (uint128_of_int128 s) /\
  value (uint128_of_int128 s) = svalue s mod 2 ^ 128.
Proof.
  destruct s as [hi lo]. intros [Hh Hl]. unfold uint128_of_int128.
  unfold wf128, svalue, value. cbn [Uint128High64 Uint128Low64 Int128High64 Int128Low64] in *.
  unfold U64.in_range, U64.wrap, U64.modulus in *. lia.
Qed.

Lemma svalue_range (s : int128_t) :
  wfi128 s -> - 2 ^ 127 <= svalue s < 2 ^ 127.
Proof. destruct s. limbs. lia. Qed.

Lemma svalue_inj (a b : int128_t) :
  wfi128 a -> wfi128 b -> svalue a = svalue b -> a = b.
Proof.
  destruct a as [ha la], b as [hb lb]. limbs. intros Ha Hb E.
  assert (ha = hb) by lia. assert (la = lb) by lia. congruence.
Qed.

Lemma svalue_sign (s : int128_t) :
  wfi128 s -> (Int128High64 s <? 0) = (svalue s <? 0).
Proof.
  destruct s as [hi lo]. limbs. intros.
  destruct (Z.ltb_spec hi 0), (Z.ltb_spec (hi * 2 ^ 64 + lo) 0); lia.
Qed.

Lemma eq_i128_eq (a b : int128_t) : eq_i128 a b = true <-> a = b.
Proof.
  destruct a as [ha la], b as [hb lb]. unfold eq_i128.
  cbn [Int128High64 Int128Low64].
  rewrite andb_true_iff, !Z.eqb_eq. split.
  - intros [-> ->]. reflexivity.
  - intros E. injection E. auto.
Qed.

Lemma eq_i128_value (a b : int128_t) :
  wfi128 a -> wfi128 b -> eq_i128 a b = (svalue a =? svalue b).
Proof.
  intros Wa Wb. destruct (Z.eqb_spec (svalue a) (svalue b)) as [E | E].
  - apply eq_i128_eq. apply svalue_inj; assumption.
  - destruct (eq_i128 a b) eqn:Q; [|reflexivity].
    apply eq_i128_eq in Q. subst. contradiction.
Qed.

Lemma wfi_Int128Min : wfi128 Int128Min.
Proof. unfold Int128Min. limbs. lia. Qed.

Lemma wfi_of_signed (v : Z) : wfi128 (int128_of_signed v).
Proof. unfold int128_of_signed. limbs. destruct (v <? 0); lia. Qed.

Lemma UnsignedAbsoluteValue_spec (s : int128_t) :
  wfi128 s ->
  wf128 (UnsignedAbsoluteValue s) /\
  value (UnsignedAbsoluteValue s) = Z.abs (svalue s).
Proof.
  intros Ws. unfold UnsignedAbsoluteValue.
  destruct (uint128_of_int128_spec s Ws) as [Wu Vu].
  pose proof (svalue_range s Ws) as R.
  rewrite svalue_sign by assumption.
  destruct (Z.ltb_spec (svalue s) 0).
  - split; [apply wf_neg128|]. rewrite value_neg128, Vu by assumption. lia.
  - split; [assumption|]. rewrite Vu. lia.
Qed.

Lemma svalue_to_int128_small (x : uint128_t) :
  wf128 x -> value x < 2 ^ 127 -> svalue (uint128_to_int128 x) = value x.
Proof.
  intros Wx Hx. destruct (uint128_to_int128_spec x Wx) as [_ ->].
  destruct (Z.ltb_spec (value x) (2 ^ 127)); lia.
Qed.

Lemma svalue_to_int128_neg (x : uint128_t) :
  wf128 x -> value x <= 2 ^ 127 ->
  svalue (uint128_to_int128 (neg128 x)) = - value x.
Proof.
  intros Wx Hx.
  destruct (uint128_to_int128_spec (neg128 x) (wf_neg128 x)) as [_ ->].
  rewrite value_neg128 by assumption. pose proof (value_range x Wx).
  destruct (Z.ltb_spec ((2 ^ 128 - value x) mod 2 ^ 128) (2 ^ 127)); lia.
Qed.

(** [int128_t::DivMod] truncates towards zero. *)
Lemma IDivMod_spec (p : clz_path) (dividend divisor : int128_t) :
  wfi128 dividend -> wfi128 divisor ->
  svalue divisor <> 0 ->
  ~ (svalue dividend = - 2 ^ 127 /\ svalue divisor = -1) ->
  exists q r,
    IDivMod p dividend divisor = Some (q, r) /\
    wfi128 q /\ wfi128 r /\
    svalue q = Z.quot (svalue dividend) (svalue divisor) /\
    svalue r = Z.rem (svalue dividend) (svalue divisor).
Proof.
  intros Wa Wb Hnz Hov. unfold IDivMod.
  rewrite !eq_i128_value by (try apply wfi_Int128Min; try apply wfi_of_signed; assumption).
  change (svalue Int128Min) with (- 2 ^ 127).
  change (svalue (int128_of_signed (-1))) with (-1).
  replace (negb (negb (svalue dividend =? - 2 ^ 127)
                 || negb (svalue divisor =? -1))) with false
    by (destruct (Z.eqb_spec (svalue dividend) (- 2 ^ 127)),
          (Z.eqb_spec (svalue divisor) (-1)); cbn; try reflexivity; tauto).
  destruct (UnsignedAbsoluteValue_spec dividend Wa) as [Wua Vua].
  destruct (UnsignedAbsoluteValue_spec divisor Wb) as [Wub Vub].
  destruct (DivMod_spec p _ _ Wua Wub ltac:(lia)) as (qu & ru & -> & Wq & Wr & Vq & Vr).
  cbn [bind]. eexists _, _. split; [reflexivity|].
  rewrite !svalue_sign by assumption.
  rewrite Vua, Vub in *.
  pose proof (svalue_range dividend Wa) as Ra.
  pose proof (svalue_range divisor Wb) as Rb.
  set (a := svalue dividend) in *. set (b := svalue divisor) in *.
  assert (Hqu : 0 <= value qu <= Z.abs a).
  { rewrite Vq. split; [apply Z.div_pos; lia|].
    apply Z.div_le_upper_bound; nia. }
  assert (Hru : 0 <= value ru < Z.abs b).
  { rewrite Vr. apply Z.mod_pos_bound. lia. }
  assert (Hru' : value ru <= Z.abs a).
  { rewrite Vr. apply Z.mod_le; lia. }
  assert (Equot : Z.quot a b = Z.sgn a * Z.sgn b * value qu)
    by (rewrite Vq; apply Z.quot_div; lia).
  assert (Erem : Z.rem a b = Z.sgn a * value ru)
    by (rewrite Vr; apply Z.rem_mod; lia).
  assert (Hstrict : (a <? 0) = (b <? 0) -> value qu < 2 ^ 127).
  { intros Hs. destruct (Z.eq_dec (Z.abs a) (2 ^ 127)) as [Ea | Ea]; [|lia].
    assert (a = - 2 ^ 127) by lia.
    destruct (Z.eq_dec (Z.abs b) 1) as [Eb | Eb].
    - exfalso. apply Hov. split; [assumption|].
      destruct (Z.ltb_spec a 0), (Z.ltb_spec b 0); try discriminate; lia.
    - rewrite Vq. apply Z.div_lt_upper_bound; nia. }
  split; [|split; [|split]].
  - apply uint128_to_int128_spec. destruct (negb _); [apply wf_neg128 | assumption].
  - apply uint128_to_int128_spec. destruct (a <? 0); [apply wf_neg128 | assumption].
  - rewrite Equot.
    destruct (Z.ltb_spec a 0) as [Ha | Ha], (Z.ltb_spec b 0) as [Hb | Hb];
      cbn [Bool.eqb negb];
      rewrite ?svalue_to_int128_neg, ?svalue_to_int128_small
        by (try assumption; try apply Hstrict; try reflexivity; lia);
      nia.
  - rewrite Erem.
    destruct (Z.ltb_spec a 0) as [Ha | Ha];
      rewrite ?svalue_to_int128_neg, ?svalue_to_int128_small
        by (try assumption; lia);
      nia.
Qed.

(** ** Numerals *)

Section Numerals.

Variable b : Z.
Hypothesis Hb : 2 <= b.

Lemma fixed_digits_length (w : nat) (n : Z) :
  List.length (fixed_digits b w n) = w.
Proof.
  revert n. induction w as [| w IH]; intros n; cbn [fixed_digits].
  - reflexivity.
  - rewrite length_app, IH. cbn. lia.
Qed.

Lemma fixed_digits_app (w1 w2 : nat) (n : Z) :
  fixed_digits b (w1 + w2) n
  = fixed_digits b w1 (n / b ^ Z.of_nat w2) ++ fixed_digits b w2 n.
Proof.
  revert n. induction w2 as [| w2 IH]; intros n.
  - rewrite Nat.add_0_r. cbn [fixed_digits Z.of_nat].
    rewrite Z.pow_0_r, Z.div_1_r, app_nil_r. reflexivity.
  - rewrite Nat.add_succ_r. cbn [fixed_digits]. rewrite IH, app_assoc.
    rewrite Z.div_div by (try apply Z.pow_pos_nonneg; lia).
    rewrite Nat2Z.inj_succ, Z.pow_succ_r by lia. reflexivity.
Qed.

Lemma fixed_digits_zero (w : nat) : fixed_digits b w 0 = repeat 0 w.
Proof.
  induction w as [| w IH]; cbn [fixed_digits repeat]; [reflexivity|].
  rewrite Zdiv_0_l, Zmod_0_l, IH. symmetry. apply repeat_cons.
Qed.

Lemma fixed_digits_mod (w : nat) (n : Z) :
  fixed_digits b w (n mod b ^ Z.of_nat w) = fixed_digits b w n.
Proof.
  revert n. induction w as [| w IH]; intros n; cbn [fixed_digits];
    [reflexivity|].
  rewrite Nat2Z.inj_succ, Z.pow_succ_r by lia.
  assert (0 < b ^ Z.of_nat w) by (apply Z.pow_pos_nonneg; lia).
  rewrite Z.rem_mul_r by lia.
  rewrite (Z.mul_comm b), Z.div_add, Z_mod_plus_full by lia.
  rewrite Z.mod_mod by lia.
  rewrite (Z.div_small (n mod b)) by (apply Z.mod_pos_bound; lia).
  rewrite Z.add_0_l, IH. reflexivity.
Qed.

Lemma fixed_digits_range (w : nat) (n : Z) :
  Forall (fun d => 0 <= d < b) (fixed_digits b w n).
Proof.
  revert n. induction w as [| w IH]; intros n; cbn [fixed_digits].
  - constructor.
  - apply Forall_app. split; [apply IH|].
    constructor; [apply Z.mod_pos_bound; lia | constructor].
Qed.

Lemma fixed_digits_nonzero (w : nat) (n : Z) :
  0 < n < b ^ Z.of_nat w -> Exists (fun d => d <> 0) (fixed_digits b w n).
Proof.
  revert n. induction w as [| w IH]; intros n Hn.
  - cbn in Hn. lia.
  - cbn [fixed_digits]. apply Exists_app.
    rewrite Nat2Z.inj_succ, Z.pow_succ_r in Hn by lia.
    destruct (Z.eq_dec (n mod b) 0) as [E | E].
    + left. apply IH.
      assert (0 < b ^ Z.of_nat w) by (apply Z.pow_pos_nonneg; lia).
      split; [|apply Z.div_lt_upper_bound; lia].
      pose proof (Z.div_mod n b ltac:(lia)).
      assert (0 <= n / b) by (apply Z.div_pos; lia). nia.
    + right. constructor. exact E.
Qed.

Lemma digits_value_snoc (l : list Z) (d : Z) :
  digits_value b (l ++ [d]) = digits_value b l * b + d.
Proof. unfold digits_value. rewrite fold_left_app. reflexivity. Qed.

Lemma digits_value_fixed (w : nat) (n : Z) :
  digits_value b (fixed_digits b w n) = n mod b ^ Z.of_nat w.
Proof.
  revert n. induction w as [| w IH]; intros n; cbn [fixed_digits].
  - cbn. rewrite Z.mod_1_r. reflexivity.
  - rewrite digits_value_snoc, IH.
    rewrite Nat2Z.inj_succ, Z.pow_succ_r by lia.
    assert (0 < b ^ Z.of_nat w) by (apply Z.pow_pos_nonneg; lia).
    rewrite Z.rem_mul_r by lia. ring.
Qed.

Lemma digits_value_strip (l : list Z) :
  digits_value b (strip_zeros l) = digits_value b l.
Proof.
  induction l as [| d tl IH]; [reflexivity|].
  cbn [strip_zeros]. destruct tl as [| e tl]; [reflexivity|].
  destruct (Z.eqb_spec d 0) as [-> | _]; [|reflexivity].
  rewrite IH. reflexivity.
Qed.

End Numerals.

Lemma strip_zeros_nonnil (l : list Z) : l <> [] -> strip_zeros l <> [].
Proof.
  induction l as [| d tl IH]; [congruence|]. intros _.
  cbn [strip_zeros]. destruct tl as [| e tl]; [discriminate|].
  destruct (d =? 0); [apply IH|]; discriminate.
Qed.

Lemma strip_zeros_head (l : list Z) :
  l <> [] -> hd 0 (strip_zeros l) <> 0 \/ strip_zeros l = [0].
Proof.
  induction l as [| d tl IH]; [congruence|]. intros _.
  cbn [strip_zeros]. destruct tl as [| e tl].
  - destruct (Z.eq_dec d 0) as [-> | N]; [right; reflexivity | left; exact N].
  - destruct (Z.eqb_spec d 0) as [-> | N]; [apply IH; discriminate|].
    left. exact N.
Qed.

Lemma strip_zeros_Forall (P : Z -> Prop) (l : list Z) :
  Forall P l -> Forall P (strip_zeros l).
Proof.
  induction 1 as [| d tl Hd Htl IH]; [constructor|].
  cbn [strip_zeros]. destruct tl as [| e tl]; [constructor; assumption|].
  destruct (d =? 0); [exact IH | constructor; assumption].
Qed.

Lemma strip_zeros_repeat (k : nat) (l : list Z) :
  l <> [] -> strip_zeros (repeat 0 k ++ l) = strip_zeros l.
Proof.
  intros Hl. induction k as [| k IH]; [reflexivity|].
  cbn [repeat app strip_zeros].
  destruct (repeat 0 k ++ l) eqn:E; [|exact IH].
  apply app_eq_nil in E. destruct E. contradiction.
Qed.

Lemma strip_zeros_app (l1 l2 : list Z) :
  Exists (fun d => d <> 0) l1 ->
  strip_zeros (l1 ++ l2) = strip_zeros l1 ++ l2.
Proof.
  induction l1 as [| d tl IH]; intros Hex; [inversion Hex|].
  cbn [app strip_zeros].
  destruct (Z.eqb_spec d 0) as [-> | N].
  - inversion Hex as [? ? H0 | ? ? Htl]; [congruence|]. subst.
    destruct tl as [| e tl]; [inversion Htl|].
    cbn [app]. apply IH. exact Htl.
  - destruct tl as [| e tl]; cbn [app]; destruct l2; reflexivity.
Qed.

Lemma strip_zeros_length (l : list Z) :
  (List.length (strip_zeros l) <= List.length l)%nat.
Proof.
  induction l as [| d tl IH]; [reflexivity|].
  cbn [strip_zeros]. destruct tl as [| e tl]; [reflexivity|].
  destruct (d =? 0); [cbn [List.length] in *; lia | reflexivity].
Qed.

(** Zero padding restores the digits the numeral dropped. *)
Lemma strip_zeros_pad (l : list Z) :
  repeat 0 (List.length l - List.length (strip_zeros l)) ++ strip_zeros l = l.
Proof.
  induction l as [| d tl IH]; [reflexivity|].
  cbn [strip_zeros]. destruct tl as [| e tl].
  - cbn. reflexivity.
  - destruct (Z.eqb_spec d 0) as [-> | N].
    + pose proof (strip_zeros_length (e :: tl)) as Hlen.
      replace (List.length (0%Z :: e :: tl) - List.length (strip_zeros (e :: tl)))%nat
        with (S (List.length (e :: tl) - List.length (strip_zeros (e :: tl))))
        by (cbn [List.length] in *; lia).
      cbn [repeat app]. rewrite IH. reflexivity.
    + rewrite Nat.sub_diag. reflexivity.
Qed.

Lemma numeral_narrow (b : Z) (k : nat) (n : Z) :
  2 <= b -> (0 < k <= 64)%nat -> 0 <= n < b ^ Z.of_nat k ->
  numeral b 64 n = strip_zeros (fixed_digits b k n).
Proof.
  intros Hb Hk Hn. unfold numeral.
  replace 64%nat with ((64 - k) + k)%nat by lia.
  rewrite fixed_digits_app by assumption.
  rewrite Z.div_small by assumption.
  rewrite fixed_digits_zero. apply strip_zeros_repeat.
  intros E. apply (f_equal (@List.length Z)) in E.
  rewrite fixed_digits_length in E. cbn in E. lia.
Qed.

Lemma numeral_split (b : Z) (k : nat) (n : Z) :
  2 <= b -> (0 < k < 64)%nat ->
  0 < n / b ^ Z.of_nat k < b ^ Z.of_nat (64 - k) ->
  numeral b 64 n
  = numeral b 64 (n / b ^ Z.of_nat k) ++ fixed_digits b k n.
Proof.
  intros Hb Hk Hq.
  rewrite (numeral_narrow b (64 - k) (n / b ^ Z.of_nat k)) by lia.
  unfold numeral.
  replace 64%nat with ((64 - k) + k)%nat at 1 by lia.
  rewrite fixed_digits_app by assumption.
  apply strip_zeros_app. apply fixed_digits_nonzero; assumption.
Qed.

Lemma numeral_canonical (b n : Z) :
  2 <= b -> canonical b (numeral b 64 n).
Proof.
  intros Hb. unfold canonical, numeral.
  assert (Hne : fixed_digits b 64 n <> []).
  { intros E. apply (f_equal (@List.length Z)) in E.
    rewrite fixed_digits_length in E. discriminate. }
  split; [|split].
  - apply strip_zeros_Forall, fixed_digits_range, Hb.
  - apply strip_zeros_nonnil, Hne.
  - apply strip_zeros_head, Hne.
Qed.

Lemma numeral_value (b n : Z) :
  2 <= b -> 0 <= n < b ^ 64 -> digits_value b (numeral b 64 n) = n.
Proof.
  intros Hb Hn. unfold numeral.
  rewrite digits_value_strip, digits_value_fixed by assumption.
  apply Z.mod_small. exact Hn.
Qed.

(** ** The stream *)

Lemma conv_base_ge_2 (f : fmtflags) : 2 <= conv_base f.
Proof. unfold conv_base. destruct (basefield_is_oct f), (basefield_is_hex f); lia. Qed.

Lemma digit_char_zero (up : bool) : digit_char up 0 = "0"%char.
Proof. unfold digit_char. cbn. reflexivity. Qed.

Lemma no_pad (n : nat) : Z.to_nat (0 - Z.of_nat n) = O.
Proof. lia. Qed.

Lemma repeat_zero_app (c : ascii) (l : list ascii) : repeat c 0 ++ l = l.
Proof. reflexivity. Qed.

Lemma u64_digits_eq (b x : Z) : u64_digits b x = numeral b 64 x.
Proof. reflexivity. Qed.

(** Zero padding writes back the digits the numeral dropped. *)
Lemma pad_strip_zeros (up : bool) (l : list Z) :
  repeat "0"%char (List.length l - List.length (strip_zeros l))
    ++ map (digit_char up) (strip_zeros l)
  = map (digit_char up) l.
Proof.
  transitivity
    (map (digit_char up)
       (repeat 0 (List.length l - List.length (strip_zeros l))
          ++ strip_zeros l)).
  - rewrite map_app, map_repeat, digit_char_zero. reflexivity.
  - rewrite strip_zeros_pad. reflexivity.
Qed.

(** With no width set, [os << x] appends the prefix and the numeral. *)
Lemma put_u64_plain (os : ostringstream) (x : Z) :
  os_width os = 0 ->
  put_u64 os x =
  {| os_flags := os_flags os; os_fill := os_fill os; os_width := 0;
     os_buf := os_buf os ++ base_prefix (os_flags os) x ++
               map (digit_char (f_uppercase (os_flags os)))
                   (numeral (conv_base (os_flags os)) 64 x) |}.
Proof.
  intros Hw. unfold put_u64. cbv zeta.
  rewrite Hw, no_pad, repeat_zero_app, u64_digits_eq. reflexivity.
Qed.

(** With [noshowbase], fill ['0'] and width [k], [os << x] appends exactly
    [k] digits. *)
Lemma put_u64_padded (os : ostringstream) (k : nat) (x : Z) :
  f_showbase (os_flags os) = false -> os_fill os = "0"%char ->
  os_width os = Z.of_nat k -> (0 < k <= 64)%nat ->
  0 <= x < conv_base (os_flags os) ^ Z.of_nat k ->
  put_u64 os x =
  {| os_flags := os_flags os; os_fill := "0"%char; os_width := 0;
     os_buf := os_buf os ++
               map (digit_char (f_uppercase (os_flags os)))
                   (fixed_digits (conv_base (os_flags os)) k x) |}.
Proof.
  intros Hsb Hfill Hw Hk Hx. unfold put_u64. cbv zeta.
  rewrite u64_digits_eq.
  rewrite (numeral_narrow _ k) by (try apply conv_base_ge_2; assumption).
  pose proof (fixed_digits_length (conv_base (os_flags os)) k x) as Hlen.
  revert Hlen. generalize (fixed_digits (conv_base (os_flags os)) k x).
  intros l Hlen.
  unfold base_prefix. rewrite Hsb, Hfill, Hw. cbn [andb app].
  rewrite length_map.
  replace (Z.to_nat (Z.of_nat k - Z.of_nat (List.length (strip_zeros l))))
    with (List.length l - List.length (strip_zeros l))%nat by lia.
  rewrite pad_strip_zeros. reflexivity.
Qed.

Lemma base_prefix_nonzero (f : fmtflags) (x y : Z) :
  x <> 0 -> y <> 0 -> base_prefix f x = base_prefix f y.
Proof.
  intros Hx Hy. unfold base_prefix.
  destruct (Z.eqb_spec x 0), (Z.eqb_spec y 0); try contradiction. reflexivity.
Qed.

Lemma conv_base_clear_showbase (f : fmtflags) :
  conv_base (clear_showbase f) = conv_base f.
Proof. reflexivity. Qed.

(** The first chunk goes to the fresh stream. *)
Lemma put_u64_first (f : fmtflags) (x : Z) :
  put_u64 (setf_copy ostringstream_new f) x =
  {| os_flags := f; os_fill := " "%char; os_width := 0;
     os_buf := base_prefix f x ++
               map (digit_char (f_uppercase f)) (numeral (conv_base f) 64 x) |}.
Proof.
  rewrite put_u64_plain by reflexivity.
  cbn [setf_copy ostringstream_new os_flags os_fill os_width os_buf].
  rewrite app_nil_l. reflexivity.
Qed.

(** A later chunk, after [noshowbase], [setfill('0')] and [setw(k)]. *)
Lemma put_u64_next (f : fmtflags) (c : ascii) (w0 : Z) (buf : list ascii)
      (k : nat) (x : Z) :
  (0 < k <= 64)%nat -> 0 <= x < conv_base f ^ Z.of_nat k ->
  put_u64
    (setw (Z.of_nat k)
       (setfill "0"%char
          (noshowbase {| os_flags := f; os_fill := c; os_width := w0;
                         os_buf := buf |}))) x =
  {| os_flags := clear_showbase f; os_fill := "0"%char; os_width := 0;
     os_buf := buf ++ map (digit_char (f_uppercase f))
                          (fixed_digits (conv_base f) k x) |}.
Proof.
  intros Hk Hx.
  rewrite (put_u64_padded _ k) by (try reflexivity; try assumption).
  cbn [setw setfill noshowbase os_flags os_fill os_width os_buf].
  rewrite conv_base_clear_showbase. reflexivity.
Qed.

(** The last chunk, after a second [setw(k)]. *)
Lemma put_u64_last (f : fmtflags) (w0 : Z) (buf : list ascii)
      (k : nat) (x : Z) :
  (0 < k <= 64)%nat -> 0 <= x < conv_base f ^ Z.of_nat k ->
  put_u64
    (setw (Z.of_nat k)
       {| os_flags := clear_showbase f; os_fill := "0"%char; os_width := w0;
          os_buf := buf |}) x =
  {| os_flags := clear_showbase f; os_fill := "0"%char; os_width := 0;
     os_buf := buf ++ map (digit_char (f_uppercase f))
                          (fixed_digits (conv_base f) k x) |}.
Proof.
  intros Hk Hx.
  rewrite (put_u64_padded _ k) by (try reflexivity; try assumption).
  cbn [setw os_flags os_fill os_width os_buf].
  rewrite conv_base_clear_showbase. reflexivity.
Qed.

(** The three chunks, written most significant first, spell the numeral
    of the whole value. *)
Lemma chunks_spell_numeral (f : fmtflags) (k : nat) (D V : Z) :
  D = conv_base f ^ Z.of_nat k ->
  (0 < k < 64)%nat -> 0 <= V ->
  V / D < conv_base f ^ Z.of_nat (64 - k) ->
  os_buf
    (put_u64
       (if negb (V / D / D =? 0) then
          setw (Z.of_nat k)
            (put_u64
               (setw (Z.of_nat k)
                  (setfill "0"%char
                     (noshowbase
                        (put_u64 (setf_copy ostringstream_new f)
                                 (V / D / D)))))
               ((V / D) mod D))
        else if negb ((V / D) mod D =? 0) then
          setw (Z.of_nat k)
            (setfill "0"%char
               (noshowbase
                  (put_u64 (setf_copy ostringstream_new f) ((V / D) mod D))))
        else setf_copy ostringstream_new f)
       (V mod D))
  = base_prefix f V
    ++ map (digit_char (f_uppercase f)) (numeral (conv_base f) 64 V).
Proof.
  intros ED Hk HV Hq.
  pose proof (conv_base_ge_2 f) as HB.
  assert (HD : 0 < D) by (subst D; apply Z.pow_pos_nonneg; lia).
  assert (Hhm : 0 <= V / D) by (apply Z.div_pos; lia).
  assert (Hh : 0 <= V / D / D) by (apply Z.div_pos; lia).
  assert (Hhle : V / D / D <= V / D) by (apply Z.div_le_upper_bound; nia).
  assert (Hlow : 0 <= V mod D < conv_base f ^ Z.of_nat k)
    by (rewrite <- ED; apply Z.mod_pos_bound; lia).
  assert (Hmid : 0 <= (V / D) mod D < conv_base f ^ Z.of_nat k)
    by (rewrite <- ED; apply Z.mod_pos_bound; lia).
  destruct (Z.eqb_spec (V / D / D) 0) as [Eh | Eh]; cbn [negb];
    [destruct (Z.eqb_spec ((V / D) mod D) 0) as [Em | Em]; cbn [negb]|].
  - (* one chunk *)
    rewrite put_u64_first. cbn [os_buf].
    assert (V / D = 0) by (pose proof (Z.div_mod (V / D) D); lia).
    assert (E : V mod D = V) by (pose proof (Z.div_mod V D); lia).
    rewrite E. reflexivity.
  - (* two chunks *)
    rewrite put_u64_first, put_u64_next by (try assumption; lia).
    cbn [os_buf].
    assert (E : (V / D) mod D = V / D) by (pose proof (Z.div_mod (V / D) D); lia).
    rewrite E in *.
    rewrite (numeral_split (conv_base f) k V) by (rewrite <- ?ED; lia).
    rewrite <- ED, ED, fixed_digits_mod, <- ED by assumption.
    rewrite map_app, <- !app_assoc.
    rewrite (base_prefix_nonzero f (V / D) V); [reflexivity | lia |].
    intros ->. rewrite Z.div_0_l in Em; lia.
  - (* three chunks *)
    rewrite put_u64_first, put_u64_next by (try assumption; lia).
    cbn [setw os_flags os_fill os_width os_buf].
    rewrite put_u64_last by (try assumption; lia).
    cbn [os_buf].
    assert (V / D <> 0) by (intros E; rewrite E, Z.div_0_l in Eh; lia).
    assert (V <> 0) by (intros E; rewrite E, Z.div_0_l in *; lia).
    rewrite (numeral_split (conv_base f) k V) by (rewrite <- ?ED; lia).
    rewrite <- ED.
    rewrite (numeral_split (conv_base f) k (V / D)) by (rewrite <- ?ED; lia).
    rewrite <- ED.
    rewrite ED, !fixed_digits_mod, <- ED by assumption.
    rewrite !map_app, <- !app_assoc.
    rewrite (base_prefix_nonzero f (V / D / D) V) by assumption.
    reflexivity.
Qed.

Lemma low64_of_small (x : uint128_t) :
  wf128 x -> value x < 2 ^ 64 -> Uint128Low64 x = value x.
Proof. destruct x as [hi lo]. limbs. lia. Qed.

(** The divisor of the [switch] is the power of the radix that the
    stream converts with. *)
Lemma chunk_div_spec (f : fmtflags) :
  exists (k : nat) (div : uint128_t),
    chunk_div f = (div, Z.of_nat k) /\
    wf128 div /\
    value div = conv_base f ^ Z.of_nat k /\
    (0 < k < 64)%nat /\
    2 ^ 60 <= value div < 2 ^ 64 /\
    2 ^ 128 <= value div * conv_base f ^ Z.of_nat (64 - k).
Proof.
  assert (W : forall x, 0 <= x < 2 ^ 64 -> wf128 (uint128_of_unsigned x))
    by (intros x Hx; split; cbn; unfold U64.in_range, U64.modulus; lia).
  unfold chunk_div, conv_base, basefield_is_hex, basefield_is_oct.
  destruct f as [d o h sb up]. cbn [f_dec f_oct f_hex].
  destruct d, o, h; cbn [andb negb];
    first
      [ exists 15%nat, (uint128_of_signed 0x1000000000000000);
        split; [reflexivity|]; split; [apply wf_of_signed|];
        split; [reflexivity|]; split; [lia|]; split;
        [vm_compute; split; [discriminate | reflexivity]
        | vm_compute; discriminate]
      | exists 21%nat, (uint128_of_unsigned (8 ^ 21));
        split; [reflexivity|]; split; [apply W; lia|];
        split; [reflexivity|]; split; [lia|]; split;
        [vm_compute; split; [discriminate | reflexivity]
        | vm_compute; discriminate]
      | exists 19%nat, (uint128_of_unsigned 10000000000000000000);
        split; [reflexivity|]; split; [apply W; lia|];
        split; [reflexivity|]; split; [lia|]; split;
        [vm_compute; split; [discriminate | reflexivity]
        | vm_compute; discriminate] ].
Qed.

(** [uint128_t::ToFormattedString] writes the base prefix and the numeral
    of the value in the radix of the flags. *)
Lemma ToFormattedString_spec (p : clz_path) (v : uint128_t) (f : fmtflags) :
  wf128 v ->
  ToFormattedString p v f =
  Some (string_of_list_ascii
          (base_prefix f (value v)
           ++ map (digit_char (f_uppercase f))
                  (numeral (conv_base f) 64 (value v)))).
Proof.
  intros Wv. unfold ToFormattedString.
  destruct (chunk_div_spec f) as (k & div & -> & Wd & Vd & Hk & Bd & Hbig).
  cbv beta iota zeta.
  pose proof (value_range v Wv) as Rv.
  destruct (DivMod_spec p v div Wv Wd ltac:(lia))
    as (h1 & low & -> & Wh1 & Wlow & Vh1 & Vlow).
  cbn [bind].
  destruct (DivMod_spec p h1 div Wh1 Wd ltac:(lia))
    as (high & mid & -> & Whigh & Wmid & Vhigh & Vmid).
  cbn [bind]. unfold str. do 2 f_equal.
  set (D := value div) in *. set (V := value v) in *.
  assert (HD : 0 < D) by lia.
  assert (Hh1 : 0 <= V / D) by (apply Z.div_pos; lia).
  assert (El : Uint128Low64 low = V mod D).
  { rewrite low64_of_small by (try assumption; rewrite Vlow; pose proof (Z.mod_pos_bound V D HD); lia).
    exact Vlow. }
  assert (Em : Uint128Low64 mid = (V / D) mod D).
  { rewrite low64_of_small by (try assumption; rewrite Vmid, Vh1; pose proof (Z.mod_pos_bound (V / D) D HD); lia).
    rewrite Vmid, Vh1. reflexivity. }
  assert (Eh : Uint128Low64 high = V / D / D).
  { assert (V / D / D < 2 ^ 64).
    { apply Z.div_lt_upper_bound; [lia|]. apply Z.div_lt_upper_bound; [lia|]. nia. }
    rewrite low64_of_small by (try assumption; rewrite Vhigh, Vh1; lia).
    rewrite Vhigh, Vh1. reflexivity. }
  rewrite El, Em, Eh.
  apply chunks_spell_numeral; try assumption; try lia.
  apply Z.div_lt_upper_bound; [lia|]. lia.
Qed.

(** * The claims *)

(** Closes a range or well-formedness goal on closed terms. *)
Ltac closed_range :=
  unfold wf128, wfi128, U64.in_range, U64.modulus;
  cbn [Uint128High64 Uint128Low64 Int128High64 Int128Low64];
  repeat split; vm_compute; first [reflexivity | discriminate].

(** C1: for every pair of unsigned values with a nonzero divisor,
    [DivMod], [operator/] and [operator%] return the quotient [floor(a/b)]
    and the remainder [a mod b]: the remainder is below the divisor,
    [(a / b) * b + (a % b) == a] holds with the type's own operators and
    without wrap-around, a divisor above the dividend gives quotient 0 and
    remainder [a], and equal operands give quotient 1 and remainder 0. *)
Theorem DivMod_quotient_remainder (p : clz_path) (a b : uint128_t) :
  wf128 a -> wf128 b -> value b <> 0 ->
  exists q r,
    DivMod p a b = Some (q, r) /\
    div128 p a b = Some q /\ mod128 p a b = Some r /\
    wf128 q /\ wf128 r /\
    value q = value a / value b /\
    value r = value a mod value b /\
    value r < value b /\
    value q * value b + value r = value a /\
    eq128 (add128 (mul128 q b) r) a = true /\
    (gt128 b a = true -> q = uint128_of_signed 0 /\ r = a) /\
    (eq128 b a = true -> q = uint128_of_signed 1 /\ r = uint128_of_signed 0).
Proof.
  intros Wa Wb Hnz.
  destruct (DivMod_spec p a b Wa Wb Hnz) as (q & r & E & Wq & Wr & Vq & Vr).
  pose proof (value_range a Wa) as Ra. pose proof (value_range b Wb) as Rb.
  assert (Hb : 0 < value b) by lia.
  pose proof (Z.mod_pos_bound (value a) (value b) Hb) as Bm.
  pose proof (Z.div_mod (value a) (value b) Hnz) as DM.
  exists q, r. unfold div128, mod128. rewrite E. cbn [bind].
  split; [reflexivity|]. split; [reflexivity|]. split; [reflexivity|].
  split; [assumption|]. split; [assumption|].
  split; [assumption|]. split; [assumption|].
  split; [lia|]. split; [rewrite Vq, Vr; lia|]. split.
  - apply eq128_eq. apply value_inj; [apply wf_add128 | assumption |].
    rewrite value_add128 by (try apply wf_mul128; assumption).
    rewrite value_mul128 by assumption.
    rewrite Zplus_mod_idemp_l, Vq, Vr.
    replace (value a / value b * value b + value a mod value b)
      with (value a) by lia.
    apply Z.mod_small; assumption.
  - split.
    + unfold gt128. rewrite lt128_value by assumption. intros Hlt.
      apply Z.ltb_lt in Hlt.
      split; apply value_inj; try assumption; try apply wf_of_signed.
      * rewrite Vq, value_zero. apply Z.div_small. lia.
      * rewrite Vr. apply Z.mod_small. lia.
    + intros Heq. apply eq128_eq in Heq. subst b.
      split; apply value_inj; try assumption; try apply wf_of_signed.
      * rewrite Vq, value_one. apply Z.div_same. assumption.
      * rewrite Vr, value_zero. apply Z.mod_same. assumption.
Qed.

Lemma DivMod_quotient_remainder_witness :
  wf128 (MakeUint128 (2 ^ 56) 0) /\ wf128 (uint128_of_signed 8) /\
  value (uint128_of_signed 8) <> 0 /\
  exists q r,
    DivMod Fallback (MakeUint128 (2 ^ 56) 0) (uint128_of_signed 8)
    = Some (q, r) /\
    div128 Fallback (MakeUint128 (2 ^ 56) 0) (uint128_of_signed 8) = Some q /\
    mod128 Fallback (MakeUint128 (2 ^ 56) 0) (uint128_of_signed 8) = Some r /\
    wf128 q /\ wf128 r /\
    value q = value (MakeUint128 (2 ^ 56) 0) / value (uint128_of_signed 8) /\
    value r
    = value (MakeUint128 (2 ^ 56) 0) mod value (uint128_of_signed 8) /\
    value r < value (uint128_of_signed 8) /\
    value q * value (uint128_of_signed 8) + value r
    = value (MakeUint128 (2 ^ 56) 0) /\
    eq128 (add128 (mul128 q (uint128_of_signed 8)) r)
          (MakeUint128 (2 ^ 56) 0) = true /\
    (gt128 (uint128_of_signed 8) (MakeUint128 (2 ^ 56) 0) = true ->
     q = uint128_of_signed 0 /\ r = MakeUint128 (2 ^ 56) 0) /\
    (eq128 (uint128_of_signed 8) (MakeUint128 (2 ^ 56) 0) = true ->
     q = uint128_of_signed 1 /\ r = uint128_of_signed 0).
Proof.
  split; [closed_range|]. split; [closed_range|].
  split; [vm_compute; discriminate|].
  apply (DivMod_quotient_remainder Fallback (MakeUint128 (2 ^ 56) 0)
           (uint128_of_signed 8)).
  - closed_range.
  - closed_range.
  - vm_compute; discriminate.
Defined.

(** [operator/] and [operator%] on [int128_t] repeat the two halves of
    [int128_t::DivMod]. *)
Lemma idiv_imod_of_IDivMod (p : clz_path) (a b q r : int128_t) :
  IDivMod p a b = Some (q, r) ->
  idiv128 p a b = Some q /\ imod128 p a b = Some r.
Proof.
  unfold IDivMod, idiv128, imod128.
  destruct (negb _); [discriminate|].
  destruct (DivMod p _ _) as [[qu ru] |]; cbn [bind]; [|discriminate].
  intros E. injection E as <- <-. split; reflexivity.
Qed.

(** C2, as stated, fails where the quotient or the remainder is zero:
    [1 / -2] is [0], which is not negative although the operand signs
    differ, and [-4 % 2] is [0], which is not negative although the
    dividend is. *)
Lemma IDivMod_zero_has_no_sign :
  exists q r q' r',
    IDivMod Fallback (int128_of_signed 1) (int128_of_signed (-2))
    = Some (q, r) /\
    (Int128High64 q <? 0)
    <> xorb (Int128High64 (int128_of_signed 1) <? 0)
            (Int128High64 (int128_of_signed (-2)) <? 0) /\
    IDivMod Fallback (int128_of_signed (-4)) (int128_of_signed 2)
    = Some (q', r') /\
    (Int128High64 r' <? 0) <> (Int128High64 (int128_of_signed (-4)) <? 0).
Proof.
  exists (MakeInt128 0 0), (MakeInt128 0 1),
    (MakeInt128 (-1) (2 ^ 64 - 2)), (MakeInt128 0 0).
  split; [vm_compute; reflexivity|]. split; [vm_compute; discriminate|].
  split; [vm_compute; reflexivity|]. vm_compute; discriminate.
Qed.

(** C2, amended: for every pair of signed values with a nonzero divisor,
    other than [Int128Min / -1], [int128_t::DivMod], [operator/] and
    [operator%] truncate towards zero: the quotient is [a quot b], the
    remainder [a rem b], and [(a / b) * b + (a % b) = a] holds exactly; a
    nonzero quotient is negative exactly when the operand signs differ,
    and a nonzero remainder has the sign of the dividend. *)
Theorem IDivMod_truncates (p : clz_path) (a b : int128_t) :
  wfi128 a -> wfi128 b -> svalue b <> 0 ->
  ~ (svalue a = - 2 ^ 127 /\ svalue b = -1) ->
  exists q r,
    IDivMod p a b = Some (q, r) /\
    idiv128 p a b = Some q /\ imod128 p a b = Some r /\
    wfi128 q /\ wfi128 r /\
    svalue q = Z.quot (svalue a) (svalue b) /\
    svalue r = Z.rem (svalue a) (svalue b) /\
    svalue q * svalue b + svalue r = svalue a /\
    Z.abs (svalue r) < Z.abs (svalue b) /\
    (svalue q <> 0 ->
     (Int128High64 q <? 0)
     = xorb (Int128High64 a <? 0) (Int128High64 b <? 0)) /\
    (svalue r <> 0 -> (Int128High64 r <? 0) = (Int128High64 a <? 0)).
Proof.
  intros Wa Wb Hnz Hov.
  destruct (IDivMod_spec p a b Wa Wb Hnz Hov)
    as (q & r & E & Wq & Wr & Vq & Vr).
  destruct (idiv_imod_of_IDivMod p a b q r E) as [Ed Em].
  exists q, r.
  split; [assumption|]. split; [assumption|]. split; [assumption|].
  split; [assumption|]. split; [assumption|].
  split; [assumption|]. split; [assumption|].
  pose proof (Z.quot_rem' (svalue a) (svalue b)) as QR.
  pose proof (Z.rem_bound_abs (svalue a) (svalue b) Hnz) as RB.
  split; [rewrite Vq, Vr; lia|]. split; [rewrite Vr; exact RB|].
  rewrite !svalue_sign by assumption. split.
  - intros Hq. rewrite Vq in *.
    pose proof (Z.quot_div (svalue a) (svalue b) Hnz) as QD.
    assert (0 <= Z.abs (svalue a) / Z.abs (svalue b))
      by (apply Z.div_pos; lia).
    destruct (Z.ltb_spec (svalue a) 0), (Z.ltb_spec (svalue b) 0),
      (Z.ltb_spec (Z.quot (svalue a) (svalue b)) 0);
      cbn [xorb]; try reflexivity; exfalso; nia.
  - intros Hr. rewrite Vr in *.
    pose proof (Z.rem_sign_nz (svalue a) (svalue b) Hnz Hr) as SG.
    destruct (Z.ltb_spec (svalue a) 0),
      (Z.ltb_spec (Z.rem (svalue a) (svalue b)) 0);
      try reflexivity; exfalso; lia.
Qed.

Lemma IDivMod_truncates_witness :
  wfi128 (int128_of_signed (-7)) /\ wfi128 (int128_of_signed 2) /\
  svalue (int128_of_signed 2) <> 0 /\
  ~ (svalue (int128_of_signed (-7)) = - 2 ^ 127 /\
     svalue (int128_of_signed 2) = -1) /\
  exists q r,
    IDivMod Fallback (int128_of_signed (-7)) (int128_of_signed 2)
    = Some (q, r) /\
    idiv128 Fallback (int128_of_signed (-7)) (int128_of_signed 2) = Some q /\
    imod128 Fallback (int128_of_signed (-7)) (int128_of_signed 2) = Some r /\
    wfi128 q /\ wfi128 r /\
    svalue q
    = Z.quot (svalue (int128_of_signed (-7))) (svalue (int128_of_signed 2)) /\
    svalue r
    = Z.rem (svalue (int128_of_signed (-7))) (svalue (int128_of_signed 2)) /\
    svalue q * svalue (int128_of_signed 2) + svalue r
    = svalue (int128_of_signed (-7)) /\
    Z.abs (svalue r) < Z.abs (svalue (int128_of_signed 2)) /\
    (svalue q <> 0 ->
     (Int128High64 q <? 0)
     = xorb (Int128High64 (int128_of_signed (-7)) <? 0)
            (Int128High64 (int128_of_signed 2) <? 0)) /\
    (svalue r <> 0 ->
     (Int128High64 r <? 0) = (Int128High64 (int128_of_signed (-7)) <? 0)).
Proof.
  split; [closed_range|]. split; [closed_range|].
  split; [vm_compute; discriminate|].
  split; [intros [_ H]; vm_compute in H; discriminate|].
  apply (IDivMod_truncates Fallback (int128_of_signed (-7))
           (int128_of_signed 2)).
  - closed_range.
  - closed_range.
  - vm_compute; discriminate.
  - intros [_ H]; vm_compute in H; discriminate.
Defined.

(** C3: on every pair of unsigned values [+], [-] and [*] return the sum,
    the difference and the product modulo [2^128]; they are total
    functions, and the product built from four 32-bit partial products
    keeps the low 128 bits of the exact product. *)
Theorem arithmetic_wraps_mod_2_128 (x y : uint128_t) :
  wf128 x -> wf128 y ->
  value (add128 x y) = (value x + value y) mod 2 ^ 128 /\
  value (sub128 x y) = (value x - value y) mod 2 ^ 128 /\
  value (mul128 x y) = (value x * value y) mod 2 ^ 128 /\
  wf128 (add128 x y) /\ wf128 (sub128 x y) /\ wf128 (mul128 x y).
Proof.
  intros Wx Wy.
  split; [apply value_add128; assumption|].
  split; [apply value_sub128; assumption|].
  split; [apply value_mul128; assumption|].
  split; [apply wf_add128|]. split; [apply wf_sub128 | apply wf_mul128].
Qed.

Lemma arithmetic_wraps_mod_2_128_witness :
  wf128 Uint128Max /\ wf128 (uint128_of_signed 2) /\
  value (add128 Uint128Max (uint128_of_signed 2))
  = (value Uint128Max + value (uint128_of_signed 2)) mod 2 ^ 128 /\
  value (sub128 Uint128Max (uint128_of_signed 2))
  = (value Uint128Max - value (uint128_of_signed 2)) mod 2 ^ 128 /\
  value (mul128 Uint128Max (uint128_of_signed 2))
  = (value Uint128Max * value (uint128_of_signed 2)) mod 2 ^ 128 /\
  wf128 (add128 Uint128Max (uint128_of_signed 2)) /\
  wf128 (sub128 Uint128Max (uint128_of_signed 2)) /\
  wf128 (mul128 Uint128Max (uint128_of_signed 2)).
Proof.
  split; [closed_range|]. split; [closed_range|].
  apply (arithmetic_wraps_mod_2_128 Uint128Max (uint128_of_signed 2));
    closed_range.
Defined.

(** C4: for a shift amount [k] in [64, 128), [v << k] has the low limb of
    [v] shifted by [k - 64] as its high limb and 0 as its low limb, and
    [v >> k] has the high limb of [v] shifted by [k - 64] as its low limb
    and 0 as its high limb; for every [k] in [0, 128), [v << k] is
    [value v * 2^k mod 2^128] and [v >> k] is [floor (value v / 2^k)]. *)
Theorem shifts_by_limbs_and_by_value (v : uint128_t) (k : Z) :
  wf128 v -> 0 <= k < 128 ->
  (64 <= k ->
   shl128 v k
   = MakeUint128 ((Uint128Low64 v * 2 ^ (k - 64)) mod 2 ^ 64) 0 /\
   shr128 v k = MakeUint128 0 (Uint128High64 v / 2 ^ (k - 64))) /\
  value (shl128 v k) = (value v * 2 ^ k) mod 2 ^ 128 /\
  value (shr128 v k) = value v / 2 ^ k.
Proof.
  intros Wv Hk. split; [|split].
  - intros H64. unfold shl128, shr128.
    destruct (Z.ltb_spec k 64); [lia|].
    unfold U64.shl, U64.shr, U64.wrap, U64.modulus.
    rewrite Z.shiftl_mul_pow2, Z.shiftr_div_pow2 by lia.
    split; reflexivity.
  - apply value_shl128; assumption.
  - apply value_shr128; assumption.
Qed.

Lemma shifts_by_limbs_and_by_value_witness :
  wf128 (MakeUint128 5 7) /\ 0 <= 70 < 128 /\
  (64 <= 70 ->
   shl128 (MakeUint128 5 7) 70
   = MakeUint128
       ((Uint128Low64 (MakeUint128 5 7) * 2 ^ (70 - 64)) mod 2 ^ 64) 0 /\
   shr128 (MakeUint128 5 7) 70
   = MakeUint128 0 (Uint128High64 (MakeUint128 5 7) / 2 ^ (70 - 64))) /\
  value (shl128 (MakeUint128 5 7) 70)
  = (value (MakeUint128 5 7) * 2 ^ 70) mod 2 ^ 128 /\
  value (shr128 (MakeUint128 5 7) 70) = value (MakeUint128 5 7) / 2 ^ 70.
Proof.
  split; [closed_range|]. split; [lia|].
  apply (shifts_by_limbs_and_by_value (MakeUint128 5 7) 70);
    [closed_range | lia].
Defined.

(** C5: of [a < b], [a == b] and [a > b] exactly one holds, and each
    agrees with the order of the numbers [hi * 2^64 + lo]: the high limbs
    decide, the low limbs break the tie. *)
Theorem comparison_trichotomy (a b : uint128_t) :
  wf128 a -> wf128 b ->
  ((lt128 a b && negb (eq128 a b) && negb (gt128 a b))
   || (negb (lt128 a b) && eq128 a b && negb (gt128 a b))
   || (negb (lt128 a b) && negb (eq128 a b) && gt128 a b)) = true /\
  lt128 a b = (value a <? value b) /\
  eq128 a b = (value a =? value b) /\
  gt128 a b = (value b <? value a).
Proof.
  intros Wa Wb. unfold gt128.
  rewrite !lt128_value, eq128_value by assumption.
  split; [|split; [|split]]; try reflexivity.
  destruct (Z.ltb_spec (value a) (value b)), (Z.eqb_spec (value a) (value b)),
    (Z.ltb_spec (value b) (value a)); cbn; try reflexivity; exfalso; lia.
Qed.

Lemma comparison_trichotomy_witness :
  wf128 (MakeUint128 1 0) /\ wf128 (MakeUint128 0 9) /\
  ((lt128 (MakeUint128 1 0) (MakeUint128 0 9)
    && negb (eq128 (MakeUint128 1 0) (MakeUint128 0 9))
    && negb (gt128 (MakeUint128 1 0) (MakeUint128 0 9)))
   || (negb (lt128 (MakeUint128 1 0) (MakeUint128 0 9))
       && eq128 (MakeUint128 1 0) (MakeUint128 0 9)
       && negb (gt128 (MakeUint128 1 0) (MakeUint128 0 9)))
   || (negb (lt128 (MakeUint128 1 0) (MakeUint128 0 9))
       && negb (eq128 (MakeUint128 1 0) (MakeUint128 0 9))
       && gt128 (MakeUint128 1 0) (MakeUint128 0 9))) = true /\
  lt128 (MakeUint128 1 0) (MakeUint128 0 9)
  = (value (MakeUint128 1 0) <? value (MakeUint128 0 9)) /\
  eq128 (MakeUint128 1 0) (MakeUint128 0 9)
  = (value (MakeUint128 1 0) =? value (MakeUint128 0 9)) /\
  gt128 (MakeUint128 1 0) (MakeUint128 0 9)
  = (value (MakeUint128 0 9) <? value (MakeUint128 1 0)).
Proof.
  split; [closed_range|]. split; [closed_range|].
  apply (comparison_trichotomy (MakeUint128 1 0) (MakeUint128 0 9));
    closed_range.
Defined.

Lemma chunked_digits_numeral (b : Z) (k : nat) (V : Z) :
  2 <= b -> (0 < k < 64)%nat -> 0 <= V ->
  V / b ^ Z.of_nat k < b ^ Z.of_nat (64 - k) ->
  chunked_digits b k V = numeral b 64 V.
Proof.
  intros Hb Hk HV Hq. unfold chunked_digits. cbv zeta.
  set (D := b ^ Z.of_nat k) in *.
  assert (HD : 0 < D) by (apply Z.pow_pos_nonneg; lia).
  assert (Hhm : 0 <= V / D) by (apply Z.div_pos; lia).
  assert (Hh : 0 <= V / D / D) by (apply Z.div_pos; lia).
  assert (Hhle : V / D / D <= V / D) by (apply Z.div_le_upper_bound; nia).
  destruct (Z.eqb_spec (V / D / D) 0) as [Eh | Eh]; cbn [negb];
    [destruct (Z.eqb_spec ((V / D) mod D) 0) as [Em | Em]; cbn [negb]|].
  - assert (V / D = 0) by (pose proof (Z.div_mod (V / D) D); lia).
    assert (E : V mod D = V) by (pose proof (Z.div_mod V D); lia).
    rewrite E. reflexivity.
  - assert (E : (V / D) mod D = V / D)
      by (pose proof (Z.div_mod (V / D) D); lia).
    rewrite E in *.
    rewrite (numeral_split b k V) by (fold D; lia). fold D.
    unfold D. rewrite fixed_digits_mod by assumption. reflexivity.
  - assert (V / D <> 0) by (intros E; rewrite E, Z.div_0_l in Eh; lia).
    rewrite (numeral_split b k V) by (fold D; lia). fold D.
    rewrite (numeral_split b k (V / D)) by (fold D; lia). fold D.
    unfold D. rewrite !fixed_digits_mod by assumption.
    rewrite <- app_assoc. reflexivity.
Qed.

Lemma chunk_div_width (f : fmtflags) :
  snd (chunk_div f) = Z.of_nat (chunk_width f) /\
  value (fst (chunk_div f)) = conv_base f ^ Z.of_nat (chunk_width f) /\
  (0 < chunk_width f < 64)%nat /\
  2 ^ 128 <= conv_base f ^ Z.of_nat (chunk_width f)
             * conv_base f ^ Z.of_nat (64 - chunk_width f).
Proof.
  unfold chunk_div, chunk_width, conv_base, basefield_is_hex, basefield_is_oct.
  destruct f as [d o h sb up]. cbn [f_dec f_oct f_hex].
  destruct d, o, h; cbn [andb negb fst snd];
    (split; [reflexivity|]; split; [reflexivity|]; split; [lia|];
     vm_compute; discriminate).
Qed.

(** C6: the formatter divides twice by the chunk divisor ([10^19],
    [8^21] or [16^15], with widths 19, 21 and 15), writes the most
    significant nonzero chunk as it is and every later chunk on exactly
    that many digits, and the text is the numeral of the value in the
    radix: digits of the radix, no leading zero, and the value when read
    back.  In decimal there is no prefix, and [MakeUint128(1, 0)] prints
    as 18446744073709551616. *)
Theorem ToFormattedString_chunks_spell_value
        (p : clz_path) (v : uint128_t) (f : fmtflags) :
  wf128 v ->
  snd (chunk_div f) = Z.of_nat (chunk_width f) /\
  value (fst (chunk_div f)) = conv_base f ^ Z.of_nat (chunk_width f) /\
  ToFormattedString p v f =
  Some (string_of_list_ascii
          (base_prefix f (value v)
           ++ map (digit_char (f_uppercase f))
                  (chunked_digits (conv_base f) (chunk_width f) (value v)))) /\
  chunked_digits (conv_base f) (chunk_width f) (value v)
  = numeral (conv_base f) 64 (value v) /\
  canonical (conv_base f) (numeral (conv_base f) 64 (value v)) /\
  digits_value (conv_base f) (numeral (conv_base f) 64 (value v)) = value v /\
  (conv_base f = 10 ->
   chunk_width f = 19%nat /\ base_prefix f (value v) = []) /\
  ToString p (MakeUint128 1 0) = Some "18446744073709551616"%string.
Proof.
  intros Wv.
  destruct (chunk_div_width f) as (Hw & Hd & Hk & Hbig).
  pose proof (conv_base_ge_2 f) as HB.
  pose proof (value_range v Wv) as Rv.
  assert (HD : 0 < conv_base f ^ Z.of_nat (chunk_width f))
    by (apply Z.pow_pos_nonneg; lia).
  assert (Ech : chunked_digits (conv_base f) (chunk_width f) (value v)
                = numeral (conv_base f) 64 (value v)).
  { apply chunked_digits_numeral; try assumption; try lia.
    apply Z.div_lt_upper_bound; lia. }
  split; [assumption|]. split; [assumption|].
  split; [rewrite Ech; apply ToFormattedString_spec; assumption|].
  split; [assumption|].
  split; [apply numeral_canonical; assumption|].
  split.
  { apply numeral_value; [assumption|]. split; [lia|].
    replace 64 with (Z.of_nat (chunk_width f) + Z.of_nat (64 - chunk_width f))
      by lia.
    rewrite Z.pow_add_r by lia. lia. }
  split.
  { unfold conv_base, chunk_width, base_prefix.
    destruct (basefield_is_oct f), (basefield_is_hex f); try discriminate.
    intros _. split; [reflexivity|]. destruct (_ && _); reflexivity. }
  destruct p; vm_compute; reflexivity.
Qed.

Lemma ToFormattedString_chunks_spell_value_witness :
  wf128 (MakeUint128 1 0) /\
  snd (chunk_div ios_dec) = Z.of_nat (chunk_width ios_dec) /\
  value (fst (chunk_div ios_dec))
  = conv_base ios_dec ^ Z.of_nat (chunk_width ios_dec) /\
  ToFormattedString Fallback (MakeUint128 1 0) ios_dec =
  Some (string_of_list_ascii
          (base_prefix ios_dec (value (MakeUint128 1 0))
           ++ map (digit_char (f_uppercase ios_dec))
                  (chunked_digits (conv_base ios_dec) (chunk_width ios_dec)
                     (value (MakeUint128 1 0))))) /\
  chunked_digits (conv_base ios_dec) (chunk_width ios_dec)
    (value (MakeUint128 1 0))
  = numeral (conv_base ios_dec) 64 (value (MakeUint128 1 0)) /\
  canonical (conv_base ios_dec)
    (numeral (conv_base ios_dec) 64 (value (MakeUint128 1 0))) /\
  digits_value (conv_base ios_dec)
    (numeral (conv_base ios_dec) 64 (value (MakeUint128 1 0)))
  = value (MakeUint128 1 0) /\
  (conv_base ios_dec = 10 ->
   chunk_width ios_dec = 19%nat /\
   base_prefix ios_dec (value (MakeUint128 1 0)) = []) /\
  ToString Fallback (MakeUint128 1 0) = Some "18446744073709551616"%string.
Proof.
  split; [closed_range|].
  apply (ToFormattedString_chunks_spell_value Fallback (MakeUint128 1 0)
           ios_dec).
  closed_range.
Defined.

(** C7: construction from a signed native integer puts all ones in the
    high limb of a negative value and zero otherwise, with the 64-bit
    pattern of the source in the low limb, so the value is the source
    modulo [2^128]; construction from an unsigned one zero-extends; and
    converting any value to [unsigned long long] and back keeps its low
    64 bits. *)
Theorem construction_extends_sign (v u : Z) (x : uint128_t) :
  - 2 ^ 63 <= v < 2 ^ 63 -> 0 <= u < 2 ^ 64 -> wf128 x ->
  Uint128High64 (uint128_of_signed v) = (if v <? 0 then 2 ^ 64 - 1 else 0) /\
  Uint128Low64 (uint128_of_signed v) = v mod 2 ^ 64 /\
  value (uint128_of_signed v) = v mod 2 ^ 128 /\
  wf128 (uint128_of_signed v) /\
  Uint128High64 (uint128_of_unsigned u) = 0 /\
  value (uint128_of_unsigned u) = u /\
  wf128 (uint128_of_unsigned u) /\
  Uint128Low64 (uint128_of_unsigned (to_unsigned_long_long x))
  = Uint128Low64 x /\
  value (uint128_of_unsigned (to_unsigned_long_long x))
  = value x mod 2 ^ 64.
Proof.
  intros Hv Hu Wx.
  split; [reflexivity|]. split; [reflexivity|].
  split; [apply value_of_signed; assumption|].
  split; [apply wf_of_signed|].
  split; [reflexivity|].
  split; [unfold value, uint128_of_unsigned; cbn [Uint128High64 Uint128Low64]; lia|].
  split; [split; cbn [uint128_of_unsigned Uint128High64 Uint128Low64];
          unfold U64.in_range, U64.modulus; lia|].
  split; [reflexivity|].
  destruct x as [hi lo]. unfold to_unsigned_long_long, uint128_of_unsigned.
  limbs. lia.
Qed.

Lemma construction_extends_sign_witness :
  - 2 ^ 63 <= -5 < 2 ^ 63 /\ 0 <= 9 < 2 ^ 64 /\ wf128 (MakeUint128 3 4) /\
  Uint128High64 (uint128_of_signed (-5))
  = (if -5 <? 0 then 2 ^ 64 - 1 else 0) /\
  Uint128Low64 (uint128_of_signed (-5)) = -5 mod 2 ^ 64 /\
  value (uint128_of_signed (-5)) = -5 mod 2 ^ 128 /\
  wf128 (uint128_of_signed (-5)) /\
  Uint128High64 (uint128_of_unsigned 9) = 0 /\
  value (uint128_of_unsigned 9) = 9 /\
  wf128 (uint128_of_unsigned 9) /\
  Uint128Low64 (uint128_of_unsigned (to_unsigned_long_long (MakeUint128 3 4)))
  = Uint128Low64 (MakeUint128 3 4) /\
  value (uint128_of_unsigned (to_unsigned_long_long (MakeUint128 3 4)))
  = value (MakeUint128 3 4) mod 2 ^ 64.
Proof.
  split; [lia|]. split; [lia|]. split; [closed_range|].
  apply (construction_extends_sign (-5) 9 (MakeUint128 3 4));
    [lia | lia | closed_range].
Defined.

(** C8: for [0 <= k < 64], [(v << k) >> k == v] whenever the top [k]
    bits of [v] are zero. *)
Theorem shl_then_shr_restores (v : uint128_t) (k : Z) :
  wf128 v -> 0 <= k < 64 -> value v < 2 ^ (128 - k) ->
  shr128 (shl128 v k) k = v /\
  eq128 (shr128 (shl128 v k) k) v = true.
Proof.
  intros Wv Hk Htop.
  assert (E : shr128 (shl128 v k) k = v).
  { apply value_inj.
    - apply wf_shr128; [apply wf_shl128; [assumption | lia] | lia].
    - assumption.
    - rewrite value_shr128 by (try apply wf_shl128; try assumption; lia).
      rewrite value_shl128 by (try assumption; lia).
      pose proof (value_range v Wv).
      assert (0 < 2 ^ k) by (apply Z.pow_pos_nonneg; lia).
      assert (2 ^ (128 - k) * 2 ^ k = 2 ^ 128)
        by (rewrite <- Z.pow_add_r by lia; f_equal; lia).
      rewrite Z.mod_small by nia. apply Z.div_mul. lia. }
  split; [exact E|]. rewrite E. apply eq128_eq. reflexivity.
Qed.

Lemma shl_then_shr_restores_witness :
  wf128 (MakeUint128 1 (2 ^ 63)) /\ 0 <= 60 < 64 /\
  value (MakeUint128 1 (2 ^ 63)) < 2 ^ (128 - 60) /\
  shr128 (shl128 (MakeUint128 1 (2 ^ 63)) 60) 60 = MakeUint128 1 (2 ^ 63) /\
  eq128 (shr128 (shl128 (MakeUint128 1 (2 ^ 63)) 60) 60)
        (MakeUint128 1 (2 ^ 63)) = true.
Proof.
  split; [closed_range|]. split; [lia|]. split; [vm_compute; reflexivity|].
  apply (shl_then_shr_restores (MakeUint128 1 (2 ^ 63)) 60);
    [closed_range | lia | vm_compute; reflexivity].
Defined.

(** C9: unary minus on [uint128_t] is negation modulo [2^128], so
    [v + (-v) == 0]; hence [UnsignedAbsoluteValue(s)] is the absolute
    value of [s] for every [int128_t], and [2^127] at [Int128Min]. *)
Theorem negation_is_twos_complement (v : uint128_t) (s : int128_t) :
  wf128 v -> wfi128 s ->
  value (neg128 v) = (2 ^ 128 - value v) mod 2 ^ 128 /\
  add128 v (neg128 v) = uint128_of_signed 0 /\
  eq128 (add128 v (neg128 v)) (uint128_of_signed 0) = true /\
  value (UnsignedAbsoluteValue s) = Z.abs (svalue s) /\
  value (UnsignedAbsoluteValue Int128Min) = 2 ^ 127.
Proof.
  intros Wv Ws.
  assert (E : add128 v (neg128 v) = uint128_of_signed 0).
  { apply value_inj; [apply wf_add128 | apply wf_of_signed |].
    rewrite value_add128 by (try apply wf_neg128; assumption).
    rewrite value_neg128, value_zero by assumption.
    pose proof (value_range v Wv). lia. }
  split; [apply value_neg128; assumption|].
  split; [exact E|]. split; [rewrite E; apply eq128_eq; reflexivity|].
  split; [apply UnsignedAbsoluteValue_spec; assumption|].
  reflexivity.
Qed.

Lemma negation_is_twos_complement_witness :
  wf128 (MakeUint128 0 1) /\ wfi128 Int128Min /\
  value (neg128 (MakeUint128 0 1))
  = (2 ^ 128 - value (MakeUint128 0 1)) mod 2 ^ 128 /\
  add128 (MakeUint128 0 1) (neg128 (MakeUint128 0 1)) = uint128_of_signed 0 /\
  eq128 (add128 (MakeUint128 0 1) (neg128 (MakeUint128 0 1)))
        (uint128_of_signed 0) = true /\
  value (UnsignedAbsoluteValue Int128Min) = Z.abs (svalue Int128Min) /\
  value (UnsignedAbsoluteValue Int128Min) = 2 ^ 127.
Proof.
  split; [closed_range|]. split; [closed_range|].
  apply (negation_is_twos_complement (MakeUint128 0 1) Int128Min);
    closed_range.
Defined.

Lemma bit_length_range (n : Z) :
  U64.in_range n -> 0 <= bit_length n <= 64.
Proof.
  unfold U64.in_range, U64.modulus. intros Hn. split.
  - unfold bit_length. destruct (n =? 0); [lia|].
    pose proof (Z.log2_nonneg n). lia.
  - apply bit_length_bound; lia.
Qed.

(** C10: in each of its four implementations [CountLeadingZeros64]
    returns a result for every 64-bit argument, namely 64 minus the bit
    length, and 64 for zero; so does the software fallback, whose table
    entry for 0 is 4 and whose offset is 60. *)
Theorem CountLeadingZeros64_defined_everywhere (p : clz_path) (n : Z) :
  U64.in_range n ->
  CountLeadingZeros64 p n = Some (64 - bit_length n) /\
  CountLeadingZeros64Slow n = Some (64 - bit_length n) /\
  0 <= 64 - bit_length n <= 64 /\
  CountLeadingZeros64 p 0 = Some 64 /\
  CountLeadingZeros64Slow 0 = Some 64 /\
  nth_error clz_nibble_table 0 = Some 4.
Proof.
  intros Hn.
  split; [apply CountLeadingZeros64_spec; assumption|].
  split; [apply CountLeadingZeros64Slow_spec; assumption|].
  split; [pose proof (bit_length_range n Hn); lia|].
  split; [destruct p; reflexivity|].
  split; reflexivity.
Qed.

Lemma CountLeadingZeros64_defined_everywhere_witness :
  U64.in_range 0 /\
  CountLeadingZeros64 Fallback 0 = Some (64 - bit_length 0) /\
  CountLeadingZeros64Slow 0 = Some (64 - bit_length 0) /\
  0 <= 64 - bit_length 0 <= 64 /\
  CountLeadingZeros64 Fallback 0 = Some 64 /\
  CountLeadingZeros64Slow 0 = Some 64 /\
  nth_error clz_nibble_table 0 = Some 4.
Proof.
  split; [unfold U64.in_range, U64.modulus; lia|].
  apply (CountLeadingZeros64_defined_everywhere Fallback 0).
  unfold U64.in_range, U64.modulus; lia.
Defined.

(** * Further properties of the code *)

(** ** The highest set bit *)

(** X1: [Fls128] returns the position [r] of the most significant set bit
    of a nonzero value, [2^r <= n < 2^(r+1)] with [r] below 128, and
    has no result on zero. *)
Theorem Fls128_highest_set_bit (p : clz_path) (n : uint128_t) :
  wf128 n ->
  (value n <> 0 ->
   exists r, Fls128 p n = Some r /\ 0 <= r < 128 /\
             2 ^ r <= value n < 2 ^ (r + 1)) /\
  (value n = 0 -> Fls128 p n = None).
Proof.
  intros Wn. pose proof (value_range n Wn) as Rn. split.
  - intros Hnz. exists (Z.log2 (value n)).
    split; [apply Fls128_spec; assumption|].
    pose proof (Z.log2_spec (value n) ltac:(lia)) as L.
    pose proof (Z.log2_nonneg (value n)).
    split; [|exact L]. split; [assumption|].
    apply Z.log2_lt_pow2; lia.
  - intros Hz. destruct n as [hi lo]. destruct Wn as [Hh Hl]. limbs.
    assert (hi = 0) by lia. assert (lo = 0) by lia. subst. reflexivity.
Qed.

Lemma Fls128_highest_set_bit_witness :
  wf128 (uint128_of_signed 5) /\
  (value (uint128_of_signed 5) <> 0 ->
   exists r, Fls128 Fallback (uint128_of_signed 5) = Some r /\ 0 <= r < 128 /\
             2 ^ r <= value (uint128_of_signed 5) < 2 ^ (r + 1)) /\
  (value (uint128_of_signed 5) = 0 ->
   Fls128 Fallback (uint128_of_signed 5) = None).
Proof.
  split; [closed_range|].
  apply (Fls128_highest_set_bit Fallback (uint128_of_signed 5)).
  closed_range.
Defined.

(** ** Casts between the signed and the unsigned view *)

(** X2: [BitCastToSigned] keeps the 64 bits: the result is in the range
    of [int64_t], congruent to the argument modulo [2^64], and negative
    exactly when bit 63 is set. *)
Theorem BitCastToSigned_keeps_bits (v : Z) :
  U64.in_range v ->
  - 2 ^ 63 <= BitCastToSigned v < 2 ^ 63 /\
  BitCastToSigned v mod 2 ^ 64 = v /\
  (BitCastToSigned v < 0 <-> 2 ^ 63 <= v).
Proof.
  intros Hv. rewrite BitCastToSigned_spec by assumption.
  unfold U64.in_range, U64.modulus in Hv.
  destruct (Z.ltb_spec v (2 ^ 63)); lia.
Qed.

Lemma BitCastToSigned_keeps_bits_witness :
  U64.in_range (2 ^ 64 - 1) /\
  - 2 ^ 63 <= BitCastToSigned (2 ^ 64 - 1) < 2 ^ 63 /\
  BitCastToSigned (2 ^ 64 - 1) mod 2 ^ 64 = 2 ^ 64 - 1 /\
  (BitCastToSigned (2 ^ 64 - 1) < 0 <-> 2 ^ 63 <= 2 ^ 64 - 1).
Proof.
  split; [unfold U64.in_range, U64.modulus; lia|].
  apply (BitCastToSigned_keeps_bits (2 ^ 64 - 1)).
  unfold U64.in_range, U64.modulus; lia.
Defined.

(** X3: the conversion [uint128_t(int128_t)] and the conversion back
    through [BitCastToSigned] on the high limb are inverse to each other,
    and the unsigned value is the signed one modulo [2^128]. *)
Theorem signed_unsigned_round_trip (x : uint128_t) (s : int128_t) :
  wf128 x -> wfi128 s ->
  uint128_of_int128 (uint128_to_int128 x) = x /\
  uint128_to_int128 (uint128_of_int128 s) = s /\
  value (uint128_of_int128 s) = svalue s mod 2 ^ 128 /\
  svalue (uint128_to_int128 x) mod 2 ^ 128 = value x.
Proof.
  intros Wx Ws.
  destruct (uint128_to_int128_spec x Wx) as [Wi Vi].
  destruct (uint128_of_int128_spec s Ws) as [Wu Vu].
  pose proof (value_range x Wx) as Rx.
  pose proof (svalue_range s Ws) as Rs.
  split; [|split; [|split]].
  - apply value_inj; [apply uint128_of_int128_spec; assumption | assumption |].
    destruct (uint128_of_int128_spec _ Wi) as [_ ->]. rewrite Vi.
    destruct (Z.ltb_spec (value x) (2 ^ 127)); lia.
  - apply svalue_inj; [apply uint128_to_int128_spec; assumption | assumption |].
    destruct (uint128_to_int128_spec _ Wu) as [_ ->]. rewrite Vu.
    destruct (Z.ltb_spec (svalue s mod 2 ^ 128) (2 ^ 127)); lia.
  - exact Vu.
  - rewrite Vi. destruct (Z.ltb_spec (value x) (2 ^ 127)); lia.
Qed.

Lemma signed_unsigned_round_trip_witness :
  wf128 Uint128Max /\ wfi128 Int128Min /\
  uint128_of_int128 (uint128_to_int128 Uint128Max) = Uint128Max /\
  uint128_to_int128 (uint128_of_int128 Int128Min) = Int128Min /\
  value (uint128_of_int128 Int128Min) = svalue Int128Min mod 2 ^ 128 /\
  svalue (uint128_to_int128 Uint128Max) mod 2 ^ 128 = value Uint128Max.
Proof.
  split; [closed_range|]. split; [closed_range|].
  apply (signed_unsigned_round_trip Uint128Max Int128Min); closed_range.
Defined.

(** ** Division: when there is no result *)

Lemma DivMod_none_iff (p : clz_path) (a b : uint128_t) :
  wf128 a -> wf128 b -> (DivMod p a b = None <-> value b = 0).
Proof.
  intros Wa Wb. split.
  - intros E. destruct (Z.eq_dec (value b) 0) as [Hb | Hb]; [exact Hb|].
    destruct (DivMod_spec p a b Wa Wb Hb) as (q & r & E' & _). congruence.
  - intros Hb. unfold DivMod, ne128.
    rewrite eq128_value by (try apply wf_of_signed; assumption).
    rewrite value_zero, Hb. reflexivity.
Qed.

(** X4: on well-formed operands the unsigned [DivMod], [operator/] and
    [operator%] have no result exactly when the divisor is zero. *)
Theorem DivMod_fails_only_on_zero_divisor (p : clz_path) (a b : uint128_t) :
  wf128 a -> wf128 b ->
  (DivMod p a b = None <-> value b = 0) /\
  (div128 p a b = None <-> value b = 0) /\
  (mod128 p a b = None <-> value b = 0).
Proof.
  intros Wa Wb. pose proof (DivMod_none_iff p a b Wa Wb) as H.
  split; [exact H|]. unfold div128, mod128.
  destruct (DivMod p a b) as [[q r] |]; cbn [bind].
  - split; (split; [discriminate|]); intros Hb; apply H in Hb;
      discriminate.
  - split; (split; [intros _; apply H; reflexivity | reflexivity]).
Qed.

Lemma DivMod_fails_only_on_zero_divisor_witness :
  wf128 Uint128Max /\ wf128 (uint128_of_signed 0) /\
  (DivMod Fallback Uint128Max (uint128_of_signed 0) = None
   <-> value (uint128_of_signed 0) = 0) /\
  (div128 Fallback Uint128Max (uint128_of_signed 0) = None
   <-> value (uint128_of_signed 0) = 0) /\
  (mod128 Fallback Uint128Max (uint128_of_signed 0) = None
   <-> value (uint128_of_signed 0) = 0).
Proof.
  split; [closed_range|]. split; [closed_range|].
  apply (DivMod_fails_only_on_zero_divisor Fallback Uint128Max
           (uint128_of_signed 0)); closed_range.
Defined.

(** X5: on well-formed operands the signed [DivMod], [operator/] and
    [operator%] have no result exactly when the divisor is zero or the
    operands are [Int128Min] and [-1]. *)
Theorem IDivMod_fails_only_on_preconditions (p : clz_path) (a b : int128_t) :
  wfi128 a -> wfi128 b ->
  (IDivMod p a b = None
   <-> svalue b = 0 \/ (svalue a = - 2 ^ 127 /\ svalue b = -1)) /\
  (idiv128 p a b = None <-> IDivMod p a b = None) /\
  (imod128 p a b = None <-> IDivMod p a b = None).
Proof.
  intros Wa Wb.
  assert (Hshape : forall A (k : uint128_t * uint128_t -> option A),
             (forall x, k x <> None) ->
             ((if negb (negb (eq_i128 a Int128Min)
                        || negb (eq_i128 b (int128_of_signed (-1))))
               then None
               else bind (DivMod p (UnsignedAbsoluteValue a)
                                   (UnsignedAbsoluteValue b)) k) = None
              <-> svalue b = 0 \/ (svalue a = - 2 ^ 127 /\ svalue b = -1))).
  { intros A k Hk.
    rewrite !eq_i128_value
      by (try apply wfi_Int128Min; try apply wfi_of_signed; assumption).
    change (svalue Int128Min) with (- 2 ^ 127).
    change (svalue (int128_of_signed (-1))) with (-1).
    destruct (UnsignedAbsoluteValue_spec a Wa) as [Wua Vua].
    destruct (UnsignedAbsoluteValue_spec b Wb) as [Wub Vub].
    pose proof (DivMod_none_iff p _ _ Wua Wub) as HD.
    rewrite Vub in HD.
    destruct (Z.eqb_spec (svalue a) (- 2 ^ 127)),
      (Z.eqb_spec (svalue b) (-1)); cbn [negb orb].
    - split; [intros _; right; split; assumption | reflexivity].
    - destruct (DivMod p _ _) as [x |] eqn:E; cbn [bind].
      + split; [intros H; elim (Hk x H)|].
        intros [Hb | [_ Hb]]; [|contradiction].
        assert (Some x = None) by (apply HD; lia). discriminate.
      + split; [intros _; left|reflexivity].
        assert (Z.abs (svalue b) = 0) by (apply HD; reflexivity). lia.
    - destruct (DivMod p _ _) as [x |] eqn:E; cbn [bind].
      + split; [intros H; elim (Hk x H)|].
        intros [Hb | [Ha _]]; [|contradiction].
        assert (Some x = None) by (apply HD; lia). discriminate.
      + split; [intros _; left|reflexivity].
        assert (Z.abs (svalue b) = 0) by (apply HD; reflexivity). lia.
    - destruct (DivMod p _ _) as [x |] eqn:E; cbn [bind].
      + split; [intros H; elim (Hk x H)|].
        intros [Hb | [Ha _]]; [|contradiction].
        assert (Some x = None) by (apply HD; lia). discriminate.
      + split; [intros _; left|reflexivity].
        assert (Z.abs (svalue b) = 0) by (apply HD; reflexivity). lia. }
  assert (E1 : IDivMod p a b = None
               <-> svalue b = 0 \/ (svalue a = - 2 ^ 127 /\ svalue b = -1)).
  { unfold IDivMod. apply Hshape. intros [q r]. discriminate. }
  split; [exact E1|]. rewrite E1. split.
  - unfold idiv128. apply Hshape. intros [q r]. discriminate.
  - unfold imod128. apply Hshape. intros [q r]. discriminate.
Qed.

Lemma IDivMod_fails_only_on_preconditions_witness :
  wfi128 Int128Min /\ wfi128 (int128_of_signed (-1)) /\
  (IDivMod Fallback Int128Min (int128_of_signed (-1)) = None
   <-> svalue (int128_of_signed (-1)) = 0
       \/ (svalue Int128Min = - 2 ^ 127 /\
           svalue (int128_of_signed (-1)) = -1)) /\
  (idiv128 Fallback Int128Min (int128_of_signed (-1)) = None
   <-> IDivMod Fallback Int128Min (int128_of_signed (-1)) = None) /\
  (imod128 Fallback Int128Min (int128_of_signed (-1)) = None
   <-> IDivMod Fallback Int128Min (int128_of_signed (-1)) = None).
Proof.
  split; [closed_range|]. split; [closed_range|].
  apply (IDivMod_fails_only_on_preconditions Fallback Int128Min
           (int128_of_signed (-1))); closed_range.
Defined.

(** ** Bitwise operators *)

Lemma in_range_high_bits (x : Z) :
  U64.in_range x -> forall n, 64 <= n -> Z.testbit x n = false.
Proof.
  unfold U64.in_range, U64.modulus. intros Hx n Hn.
  rewrite <- (Z.mod_small x (2 ^ 64)) by lia.
  apply Z.mod_pow2_bits_high. lia.
Qed.

Lemma in_range_of_high_bits (x : Z) :
  (forall n, 64 <= n -> Z.testbit x n = false) -> U64.in_range x.
Proof.
  intros H. unfold U64.in_range, U64.modulus.
  assert (E : x mod 2 ^ 64 = x).
  { apply Z.bits_inj'. intros n Hn.
    destruct (Z.lt_ge_cases n 64).
    - apply Z.mod_pow2_bits_low. lia.
    - rewrite Z.mod_pow2_bits_high by lia. symmetry. apply H. lia. }
  rewrite <- E. apply Z.mod_pos_bound. lia.
Qed.

(** Bit [n] of the value is bit [n] of the low limb or bit [n - 64] of
    the high one. *)
Lemma testbit_value (v : uint128_t) (n : Z) :
  wf128 v -> 0 <= n ->
  Z.testbit (value v) n
  = if n <? 64 then Z.testbit (Uint128Low64 v) n
    else Z.testbit (Uint128High64 v) (n - 64).
Proof.
  destruct v as [hi lo]. intros [Hh Hl] Hn. unfold value.
  cbn [Uint128High64 Uint128Low64] in *.
  rewrite <- lor_disjoint by (unfold U64.in_range, U64.modulus in Hl; lia).
  rewrite Z.lor_spec.
  destruct (Z.ltb_spec n 64).
  - rewrite Z.mul_pow2_bits_low by lia. reflexivity.
  - rewrite Z.mul_pow2_bits by lia.
    rewrite (in_range_high_bits lo Hl n) by lia. apply orb_false_r.
Qed.

Section Bitwise.

Variable op : Z -> Z -> Z.
Variable bop : bool -> bool -> bool.
Hypothesis op_spec :
  forall a b n, Z.testbit (op a b) n = bop (Z.testbit a n) (Z.testbit b n).
Hypothesis bop_false : bop false false = false.

Lemma bitwise_limbs (a b : uint128_t) :
  wf128 a -> wf128 b ->
  let r := MakeUint128 (op (Uint128High64 a) (Uint128High64 b))
                       (op (Uint128Low64 a) (Uint128Low64 b)) in
  wf128 r /\ value r = op (value a) (value b).
Proof.
  intros Wa Wb r.
  assert (Wr : wf128 r).
  { destruct Wa as [Hah Hal], Wb as [Hbh Hbl].
    split; cbn [r Uint128High64 Uint128Low64]; apply in_range_of_high_bits;
      intros n Hn; rewrite op_spec, !in_range_high_bits by assumption;
      exact bop_false. }
  split; [exact Wr|].
  apply Z.bits_inj'. intros n Hn.
  rewrite op_spec, !testbit_value by assumption.
  cbn [r Uint128High64 Uint128Low64].
  destruct (n <? 64); apply op_spec.
Qed.

End Bitwise.

Lemma value_not128 (v : uint128_t) :
  wf128 v -> wf128 (not128 v) /\ value (not128 v) = 2 ^ 128 - 1 - value v.
Proof.
  destruct v as [hi lo]. intros [Hh Hl]. unfold not128. limbs.
  rewrite !Z.lnot_eq_pred_opp. unfold Z.pred. lia.
Qed.

(** X6: [&], [|] and [^] act on the 128-bit value as the bitwise
    operations on integers, [~] is the complement [2^128 - 1 - v], and
    all four stay within 128 bits. *)
Theorem bitwise_operators_on_values (a b : uint128_t) :
  wf128 a -> wf128 b ->
  value (and128 a b) = Z.land (value a) (value b) /\
  value (or128 a b) = Z.lor (value a) (value b) /\
  value (xor128 a b) = Z.lxor (value a) (value b) /\
  value (not128 a) = 2 ^ 128 - 1 - value a /\
  wf128 (and128 a b) /\ wf128 (or128 a b) /\ wf128 (xor128 a b) /\
  wf128 (not128 a).
Proof.
  intros Wa Wb.
  destruct (bitwise_limbs Z.land andb Z.land_spec eq_refl a b Wa Wb)
    as [W1 V1].
  destruct (bitwise_limbs Z.lor orb Z.lor_spec eq_refl a b Wa Wb)
    as [W2 V2].
  destruct (bitwise_limbs Z.lxor xorb Z.lxor_spec eq_refl a b Wa Wb)
    as [W3 V3].
  destruct (value_not128 a Wa) as [W4 V4].
  repeat (split; [assumption|]). assumption.
Qed.

Lemma bitwise_operators_on_values_witness :
  wf128 (MakeUint128 12 10) /\ wf128 (MakeUint128 10 12) /\
  value (and128 (MakeUint128 12 10) (MakeUint128 10 12))
  = Z.land (value (MakeUint128 12 10)) (value (MakeUint128 10 12)) /\
  value (or128 (MakeUint128 12 10) (MakeUint128 10 12))
  = Z.lor (value (MakeUint128 12 10)) (value (MakeUint128 10 12)) /\
  value (xor128 (MakeUint128 12 10) (MakeUint128 10 12))
  = Z.lxor (value (MakeUint128 12 10)) (value (MakeUint128 10 12)) /\
  value (not128 (MakeUint128 12 10))
  = 2 ^ 128 - 1 - value (MakeUint128 12 10) /\
  wf128 (and128 (MakeUint128 12 10) (MakeUint128 10 12)) /\
  wf128 (or128 (MakeUint128 12 10) (MakeUint128 10 12)) /\
  wf128 (xor128 (MakeUint128 12 10) (MakeUint128 10 12)) /\
  wf128 (not128 (MakeUint128 12 10)).
Proof.
  split; [closed_range|]. split; [closed_range|].
  apply (bitwise_operators_on_values (MakeUint128 12 10) (MakeUint128 10 12));
    closed_range.
Defined.

(** ** How the arithmetic operators compose *)

(** X7: unary minus is complement plus one, and binary minus is the sum
    with the negation. *)
Theorem negation_and_subtraction_compose (a b : uint128_t) :
  wf128 a -> wf128 b ->
  neg128 a = add128 (not128 a) (uint128_of_signed 1) /\
  sub128 a b = add128 a (neg128 b) /\
  neg128 (neg128 a) = a.
Proof.
  intros Wa Wb.
  pose proof (value_range a Wa) as Ra. pose proof (value_range b Wb) as Rb.
  destruct (value_not128 a Wa) as [Wn Vn].
  split; [|split].
  - apply value_inj; [apply wf_neg128 | apply wf_add128 |].
    rewrite value_neg128 by assumption.
    rewrite value_add128 by (try apply wf_of_signed; assumption).
    rewrite Vn, value_one. f_equal. lia.
  - apply value_inj; [apply wf_sub128 | apply wf_add128 |].
    rewrite value_sub128 by assumption.
    rewrite value_add128 by (try apply wf_neg128; assumption).
    rewrite value_neg128 by assumption. lia.
  - apply value_inj; [apply wf_neg128 | assumption |].
    rewrite !value_neg128 by (try apply wf_neg128; assumption). lia.
Qed.

Lemma negation_and_subtraction_compose_witness :
  wf128 (MakeUint128 0 0) /\ wf128 Uint128Max /\
  neg128 (MakeUint128 0 0)
  = add128 (not128 (MakeUint128 0 0)) (uint128_of_signed 1) /\
  sub128 (MakeUint128 0 0) Uint128Max
  = add128 (MakeUint128 0 0) (neg128 Uint128Max) /\
  neg128 (neg128 (MakeUint128 0 0)) = MakeUint128 0 0.
Proof.
  split; [closed_range|]. split; [closed_range|].
  apply (negation_and_subtraction_compose (MakeUint128 0 0) Uint128Max);
    closed_range.
Defined.

(** X8: [<=], [>=] and [!=] agree with the order of the values, and two
    values each [<=] the other are the same value. *)
Theorem derived_comparisons (a b : uint128_t) :
  wf128 a -> wf128 b ->
  le128 a b = (value a <=? value b) /\
  ge128 a b = (value b <=? value a) /\
  ne128 a b = negb (value a =? value b) /\
  (le128 a b = true -> le128 b a = true -> a = b).
Proof.
  intros Wa Wb. unfold le128, ge128, ne128.
  rewrite !lt128_value, eq128_value by assumption.
  split; [|split; [|split]].
  - destruct (Z.ltb_spec (value b) (value a)),
      (Z.leb_spec (value a) (value b)); try reflexivity; lia.
  - destruct (Z.ltb_spec (value a) (value b)),
      (Z.leb_spec (value b) (value a)); try reflexivity; lia.
  - reflexivity.
  - intros H1 H2. apply value_inj; try assumption.
    destruct (Z.ltb_spec (value b) (value a)),
      (Z.ltb_spec (value a) (value b)); try discriminate; lia.
Qed.

Lemma derived_comparisons_witness :
  wf128 (MakeUint128 0 9) /\ wf128 (MakeUint128 1 0) /\
  le128 (MakeUint128 0 9) (MakeUint128 1 0)
  = (value (MakeUint128 0 9) <=? value (MakeUint128 1 0)) /\
  ge128 (MakeUint128 0 9) (MakeUint128 1 0)
  = (value (MakeUint128 1 0) <=? value (MakeUint128 0 9)) /\
  ne128 (MakeUint128 0 9) (MakeUint128 1 0)
  = negb (value (MakeUint128 0 9) =? value (MakeUint128 1 0)) /\
  (le128 (MakeUint128 0 9) (MakeUint128 1 0) = true ->
   le128 (MakeUint128 1 0) (MakeUint128 0 9) = true ->
   MakeUint128 0 9 = MakeUint128 1 0).
Proof.
  split; [closed_range|]. split; [closed_range|].
  apply (derived_comparisons (MakeUint128 0 9) (MakeUint128 1 0));
    closed_range.
Defined.

(** X9: two shifts in the same direction compose into one by the sum of
    the amounts, as long as the sum stays below 128; in particular a
    shift by [k >= 64] is a shift by 64 followed by one by [k - 64]. *)
Theorem shifts_compose (v : uint128_t) (j k : Z) :
  wf128 v -> 0 <= j -> 0 <= k -> j + k < 128 ->
  shl128 (shl128 v j) k = shl128 v (j + k) /\
  shr128 (shr128 v j) k = shr128 v (j + k).
Proof.
  intros Wv Hj Hk Hjk.
  assert (0 < 2 ^ j) by (apply Z.pow_pos_nonneg; lia).
  assert (0 < 2 ^ k) by (apply Z.pow_pos_nonneg; lia).
  split.
  - apply value_inj; try (repeat apply wf_shl128; try assumption; lia).
    rewrite !value_shl128
      by (try apply wf_shl128; try assumption; lia).
    rewrite Z.mul_mod_idemp_l by lia.
    rewrite Z.pow_add_r by lia. f_equal. ring.
  - apply value_inj; try (repeat apply wf_shr128; try assumption; lia).
    rewrite !value_shr128
      by (try apply wf_shr128; try assumption; lia).
    rewrite Z.pow_add_r by lia. apply Z.div_div; lia.
Qed.

Lemma shifts_compose_witness :
  wf128 Uint128Max /\ 0 <= 64 /\ 0 <= 13 /\ 64 + 13 < 128 /\
  shl128 (shl128 Uint128Max 64) 13 = shl128 Uint128Max (64 + 13) /\
  shr128 (shr128 Uint128Max 64) 13 = shr128 Uint128Max (64 + 13).
Proof.
  split; [closed_range|]. split; [lia|]. split; [lia|]. split; [lia|].
  apply (shifts_compose Uint128Max 64 13); [closed_range | lia | lia | lia].
Defined.

(** X10: the portable multiplication is commutative and associative,
    distributes over addition, has 1 as unit, and multiplying by [1 << k]
    is shifting left by [k]. *)
Theorem multiplication_laws (a b c : uint128_t) (k : Z) :
  wf128 a -> wf128 b -> wf128 c -> 0 <= k < 128 ->
  mul128 a b = mul128 b a /\
  mul128 (mul128 a b) c = mul128 a (mul128 b c) /\
  mul128 a (add128 b c) = add128 (mul128 a b) (mul128 a c) /\
  mul128 a (uint128_of_signed 1) = a /\
  mul128 a (shl128 (uint128_of_signed 1) k) = shl128 a k.
Proof.
  intros Wa Wb Wc Hk.
  pose proof (value_range a Wa) as Ra.
  assert (W1 : wf128 (shl128 (uint128_of_signed 1) k))
    by (apply wf_shl128; [apply wf_of_signed | lia]).
  assert (0 < 2 ^ k) by (apply Z.pow_pos_nonneg; lia).
  split; [|split; [|split; [|split]]];
    apply value_inj;
    try apply wf_mul128; try apply wf_add128; try assumption;
    try (apply wf_shl128; [assumption | lia]).
  - rewrite !value_mul128 by assumption. f_equal. ring.
  - rewrite !value_mul128 by (try apply wf_mul128; assumption).
    rewrite Z.mul_mod_idemp_l, Z.mul_mod_idemp_r by lia. f_equal. ring.
  - rewrite !value_mul128, !value_add128, !value_mul128
      by (try apply wf_add128; try apply wf_mul128; assumption).
    rewrite Z.mul_mod_idemp_r by lia.
    rewrite <- Z.add_mod by lia. f_equal. ring.
  - rewrite value_mul128 by (try apply wf_of_signed; assumption).
    rewrite value_one, Z.mul_1_r. apply Z.mod_small. assumption.
  - rewrite value_mul128 by assumption.
    rewrite !value_shl128 by (try apply wf_of_signed; try assumption; lia).
    rewrite value_one, Z.mul_1_l, Z.mul_mod_idemp_r by lia. reflexivity.
Qed.

Lemma multiplication_laws_witness :
  wf128 Uint128Max /\ wf128 (MakeUint128 3 5) /\ wf128 (MakeUint128 7 11) /\
  0 <= 100 < 128 /\
  mul128 Uint128Max (MakeUint128 3 5) = mul128 (MakeUint128 3 5) Uint128Max /\
  mul128 (mul128 Uint128Max (MakeUint128 3 5)) (MakeUint128 7 11)
  = mul128 Uint128Max (mul128 (MakeUint128 3 5) (MakeUint128 7 11)) /\
  mul128 Uint128Max (add128 (MakeUint128 3 5) (MakeUint128 7 11))
  = add128 (mul128 Uint128Max (MakeUint128 3 5))
           (mul128 Uint128Max (MakeUint128 7 11)) /\
  mul128 Uint128Max (uint128_of_signed 1) = Uint128Max /\
  mul128 Uint128Max (shl128 (uint128_of_signed 1) 100)
  = shl128 Uint128Max 100.
Proof.
  split; [closed_range|]. split; [closed_range|]. split; [closed_range|].
  split; [lia|].
  apply (multiplication_laws Uint128Max (MakeUint128 3 5) (MakeUint128 7 11)
           100); [closed_range | closed_range | closed_range | lia].
Defined.

(** X11: increment and decrement are inverse to each other and wrap
    around: [++] takes [Uint128Max] to 0 and [--] takes 0 to
    [Uint128Max]; the postfix forms return the old value. *)
Theorem increment_decrement (v : uint128_t) :
  wf128 v ->
  dec128 (inc128 v) = v /\ inc128 (dec128 v) = v /\
  value (inc128 v) = (value v + 1) mod 2 ^ 128 /\
  value (dec128 v) = (value v - 1) mod 2 ^ 128 /\
  inc128 Uint128Max = uint128_of_signed 0 /\
  dec128 (uint128_of_signed 0) = Uint128Max /\
  post_inc128 v = (v, inc128 v) /\ post_dec128 v = (v, dec128 v).
Proof.
  intros Wv. pose proof (value_range v Wv) as Rv. unfold inc128, dec128.
  assert (W1 := wf_of_signed 1).
  split; [|split; [|split; [|split]]].
  - apply value_inj; [apply wf_sub128 | assumption |].
    rewrite value_sub128 by (try apply wf_add128; assumption).
    rewrite value_add128, value_one by assumption. lia.
  - apply value_inj; [apply wf_add128 | assumption |].
    rewrite value_add128 by (try apply wf_sub128; assumption).
    rewrite value_sub128, value_one by assumption. lia.
  - rewrite value_add128, value_one by assumption. reflexivity.
  - rewrite value_sub128, value_one by assumption. reflexivity.
  - repeat split; reflexivity.
Qed.

Lemma increment_decrement_witness :
  wf128 Uint128Max /\
  dec128 (inc128 Uint128Max) = Uint128Max /\
  inc128 (dec128 Uint128Max) = Uint128Max /\
  value (inc128 Uint128Max) = (value Uint128Max + 1) mod 2 ^ 128 /\
  value (dec128 Uint128Max) = (value Uint128Max - 1) mod 2 ^ 128 /\
  inc128 Uint128Max = uint128_of_signed 0 /\
  dec128 (uint128_of_signed 0) = Uint128Max /\
  post_inc128 Uint128Max = (Uint128Max, inc128 Uint128Max) /\
  post_dec128 Uint128Max = (Uint128Max, dec128 Uint128Max).
Proof.
  split; [closed_range|].
  apply (increment_decrement Uint128Max). closed_range.
Defined.

(** ** Reading a formatted value back *)

Lemma some_inj {A : Type} (x y : A) : Some x = Some y -> x = y.
Proof. intros E. injection E. auto. Qed.

Lemma string_of_list_ascii_inj (l1 l2 : list ascii) :
  string_of_list_ascii l1 = string_of_list_ascii l2 -> l1 = l2.
Proof.
  intros E. apply (f_equal list_ascii_of_string) in E.
  rewrite !list_ascii_of_string_of_list_ascii in E. exact E.
Qed.

Lemma string_of_list_ascii_length (l : list ascii) :
  String.length (string_of_list_ascii l) = List.length l.
Proof. induction l as [| c l IH]; cbn; [reflexivity | rewrite IH; reflexivity]. Qed.

Lemma string_of_list_ascii_app (l1 l2 : list ascii) :
  string_of_list_ascii (l1 ++ l2)
  = (string_of_list_ascii l1 ++ string_of_list_ascii l2)%string.
Proof. induction l1 as [| c l IH]; cbn; [reflexivity | rewrite IH; reflexivity]. Qed.

(** The code of a digit below thirty-six. *)
Lemma digit_char_code (up : bool) (d : Z) :
  0 <= d < 36 ->
  Z.of_nat (nat_of_ascii (digit_char up d))
  = if d <? 10 then 48 + d else (if up then 55 else 87) + d.
Proof.
  intros Hd. unfold digit_char.
  rewrite nat_ascii_embedding by (destruct (d <? 10), up; lia).
  destruct (Z.ltb_spec d 10), up; lia.
Qed.

Lemma digit_char_inj (up : bool) (d e : Z) :
  0 <= d < 16 -> 0 <= e < 16 -> digit_char up d = digit_char up e -> d = e.
Proof.
  intros Hd He E.
  apply (f_equal (fun c => Z.of_nat (nat_of_ascii c))) in E.
  rewrite !digit_char_code in E by lia.
  destruct (Z.ltb_spec d 10), (Z.ltb_spec e 10), up; lia.
Qed.

Lemma map_digit_char_inj (up : bool) (b : Z) (l1 l2 : list Z) :
  b <= 16 ->
  Forall (fun d => 0 <= d < b) l1 -> Forall (fun d => 0 <= d < b) l2 ->
  map (digit_char up) l1 = map (digit_char up) l2 -> l1 = l2.
Proof.
  intros Hb H1. revert l2.
  induction H1 as [| d l1 Hd _ IH]; intros l2 H2 E; destruct l2 as [| e l2];
    try discriminate; [reflexivity|].
  inversion H2; subst. cbn [map] in E. injection E as Ed El.
  f_equal; [apply (digit_char_inj up); [lia | lia | exact Ed] | apply IH; assumption].
Qed.

Lemma conv_base_le_16 (f : fmtflags) : conv_base f <= 16.
Proof.
  unfold conv_base. destruct (basefield_is_oct f), (basefield_is_hex f); lia.
Qed.

Lemma numeral_nonempty (b n : Z) : 2 <= b -> numeral b 64 n <> [].
Proof. intros Hb. apply (numeral_canonical b n Hb). Qed.

Lemma value_lt_pow_64 (f : fmtflags) (v : uint128_t) :
  wf128 v -> 0 <= value v < conv_base f ^ 64.
Proof.
  intros Wv. pose proof (value_range v Wv).
  assert (2 ^ 128 <= conv_base f ^ 64).
  { unfold conv_base.
    destruct (basefield_is_oct f), (basefield_is_hex f);
      vm_compute; discriminate. }
  lia.
Qed.

Lemma numeral_zero (b : Z) : 2 <= b -> numeral b 64 0 = [0].
Proof.
  intros Hb. unfold numeral. rewrite fixed_digits_zero by assumption.
  reflexivity.
Qed.

Lemma base_prefix_zero (f : fmtflags) : base_prefix f 0 = [].
Proof. unfold base_prefix. cbn. rewrite andb_false_r. reflexivity. Qed.

(** The prefix of a nonzero value ends before a digit can be mistaken. *)
Lemma base_prefix_cases (f : fmtflags) (x : Z) :
  x <> 0 ->
  base_prefix f x = [] \/
  base_prefix f x = ["0"%char] \/
  base_prefix f x = ["0"%char; if f_uppercase f then "X"%char else "x"%char].
Proof.
  intros Hx. unfold base_prefix.
  destruct (f_showbase f && negb (x =? 0)); [|left; reflexivity].
  destruct (basefield_is_oct f); [right; left; reflexivity|].
  destruct (basefield_is_hex f); [right; right; reflexivity|].
  left. reflexivity.
Qed.

(** X12: under the same flags two values are formatted alike only if
    they are the same value: the text determines the 128 bits. *)
Theorem ToFormattedString_injective
        (p p' : clz_path) (a b : uint128_t) (f : fmtflags) :
  wf128 a -> wf128 b ->
  ToFormattedString p a f = ToFormattedString p' b f -> a = b.
Proof.
  intros Wa Wb E.
  rewrite !ToFormattedString_spec in E by assumption.
  apply some_inj in E. apply string_of_list_ascii_inj in E.
  pose proof (conv_base_ge_2 f) as HB. pose proof (conv_base_le_16 f) as HB'.
  pose proof (value_range a Wa) as Ra. pose proof (value_range b Wb) as Rb.
  assert (Hzero : forall x y,
             0 <= y < conv_base f ^ 64 -> y <> 0 ->
             base_prefix f 0 ++ map (digit_char (f_uppercase f))
                                    (numeral (conv_base f) 64 0)
             = base_prefix f y ++ map (digit_char (f_uppercase f))
                                      (numeral (conv_base f) 64 y) ->
             x = y).
  { intros x y Hy Hnz Ey. exfalso.
    rewrite base_prefix_zero, numeral_zero in Ey by assumption.
    cbn [app map] in Ey. rewrite digit_char_zero in Ey.
    pose proof (numeral_canonical (conv_base f) y HB) as (Hr & Hne & Hhd).
    pose proof (numeral_value (conv_base f) y HB Hy) as Hv.
    destruct (numeral (conv_base f) 64 y) as [| d ds]; [congruence|].
    destruct (base_prefix_cases f y Hnz) as [P | [P | P]]; rewrite P in Ey;
      cbn [app map] in Ey; try discriminate.
    injection Ey as Ed Eds. destruct ds; [|discriminate].
    rewrite <- (digit_char_zero (f_uppercase f)) in Ed.
    apply digit_char_inj in Ed; [|lia | inversion Hr; lia].
    subst d. cbn in Hv. lia. }
  destruct (Z.eq_dec (value a) 0) as [Ha | Ha],
    (Z.eq_dec (value b) 0) as [Hb | Hb].
  - apply value_inj; try assumption. congruence.
  - rewrite Ha in E. apply value_inj; try assumption. rewrite Ha.
    apply (Hzero 0 (value b)); try assumption.
    apply value_lt_pow_64; assumption.
  - rewrite Hb in E. apply value_inj; try assumption. rewrite Hb. symmetry.
    apply (Hzero 0 (value a)); try assumption; [|symmetry; exact E].
    apply value_lt_pow_64; assumption.
  - rewrite (base_prefix_nonzero f (value a) (value b)) in E by assumption.
    apply app_inv_head in E.
    apply (map_digit_char_inj _ (conv_base f)) in E;
      try assumption; try (apply numeral_canonical; assumption).
    apply value_inj; try assumption.
    rewrite <- (numeral_value (conv_base f) (value a))
      by (try assumption; apply value_lt_pow_64; assumption).
    rewrite <- (numeral_value (conv_base f) (value b))
      by (try assumption; apply value_lt_pow_64; assumption).
    rewrite E. reflexivity.
Qed.

Lemma ToFormattedString_injective_witness :
  wf128 (MakeUint128 1 0) /\ wf128 (MakeUint128 1 0) /\
  ToFormattedString Fallback (MakeUint128 1 0) ios_dec
  = ToFormattedString GnuC (MakeUint128 1 0) ios_dec /\
  MakeUint128 1 0 = MakeUint128 1 0.
Proof.
  split; [closed_range|]. split; [closed_range|].
  split; [vm_compute; reflexivity|].
  apply (ToFormattedString_injective Fallback GnuC (MakeUint128 1 0)
           (MakeUint128 1 0) ios_dec);
    [closed_range | closed_range | vm_compute; reflexivity].
Defined.

(** ** The length of a numeral *)

Section DigitCount.

Variable b : Z.
Hypothesis Hb : 2 <= b.

Lemma fold_digits_acc (l : list Z) (acc : Z) :
  fold_left (fun a d => a * b + d) l acc
  = acc * b ^ Z.of_nat (List.length l) + digits_value b l.
Proof.
  unfold digits_value. revert acc.
  induction l as [| d l IH]; intros acc; cbn [fold_left List.length].
  - change (Z.of_nat 0) with 0. rewrite Z.pow_0_r. ring.
  - rewrite IH, (IH (0 * b + d)), Nat2Z.inj_succ, Z.pow_succ_r by lia. ring.
Qed.

Lemma digits_value_cons (d : Z) (l : list Z) :
  digits_value b (d :: l)
  = d * b ^ Z.of_nat (List.length l) + digits_value b l.
Proof.
  unfold digits_value at 1. cbn [fold_left]. rewrite fold_digits_acc. ring.
Qed.

Lemma digits_value_bound (l : list Z) :
  Forall (fun d => 0 <= d < b) l ->
  0 <= digits_value b l < b ^ Z.of_nat (List.length l).
Proof.
  induction 1 as [| d l Hd _ IH].
  - cbn. lia.
  - rewrite digits_value_cons. cbn [List.length].
    rewrite Nat2Z.inj_succ, Z.pow_succ_r by lia. nia.
Qed.

(** A canonical numeral of a nonzero number [n] has [k] digits with
    [b^(k-1) <= n < b^k]. *)
Lemma canonical_digit_count (l : list Z) :
  canonical b l -> digits_value b l <> 0 ->
  b ^ (Z.of_nat (List.length l) - 1) <= digits_value b l
  < b ^ Z.of_nat (List.length l).
Proof.
  intros (Hr & Hne & Hhd) Hnz.
  split; [|apply digits_value_bound; assumption].
  destruct l as [| d l]; [congruence|].
  destruct Hhd as [Hd | E]; [|rewrite E in Hnz; cbn in Hnz; lia].
  cbn [hd] in Hd. inversion Hr as [| ? ? Hd' Hl]; subst.
  rewrite digits_value_cons. cbn [List.length].
  replace (Z.of_nat (S (List.length l)) - 1) with (Z.of_nat (List.length l))
    by lia.
  pose proof (digits_value_bound l Hl).
  assert (0 < b ^ Z.of_nat (List.length l)) by (apply Z.pow_pos_nonneg; lia).
  nia.
Qed.

End DigitCount.

Lemma base_prefix_length (f : fmtflags) (x : Z) :
  (List.length (base_prefix f x) <= 2)%nat /\
  (basefield_is_hex f = false -> List.length (base_prefix f x) <= 1)%nat /\
  (conv_base f = 10 -> base_prefix f x = []).
Proof.
  unfold base_prefix, conv_base.
  destruct (f_showbase f && negb (x =? 0)), (basefield_is_oct f),
    (basefield_is_hex f); cbn; repeat split; intros; try lia;
    try discriminate; reflexivity.
Qed.

(** X13: the text of a value has as many digits as the value needs in
    the radix, [b^(k-1) <= v < b^k] for a nonzero [v] and one digit for
    zero; so it is never empty, at most 39 characters long in decimal
    and at most 44 in any radix, prefix included. *)
Theorem ToFormattedString_length
        (p : clz_path) (v : uint128_t) (f : fmtflags) :
  wf128 v ->
  exists (s : string) (k : nat),
    ToFormattedString p v f = Some s /\
    k = List.length (numeral (conv_base f) 64 (value v)) /\
    String.length s
    = (List.length (base_prefix f (value v)) + k)%nat /\
    (value v = 0 -> k = 1%nat) /\
    (value v <> 0 ->
     conv_base f ^ (Z.of_nat k - 1) <= value v < conv_base f ^ Z.of_nat k) /\
    (1 <= String.length s <= 44)%nat /\
    (conv_base f = 10 -> (String.length s <= 39)%nat).
Proof.
  intros Wv.
  pose proof (conv_base_ge_2 f) as HB.
  pose proof (value_range v Wv) as Rv.
  pose proof (numeral_canonical (conv_base f) (value v) HB) as Hc.
  pose proof (numeral_value (conv_base f) (value v) HB
                (value_lt_pow_64 f v Wv)) as Hv.
  pose proof (canonical_digit_count (conv_base f) HB _ Hc) as Hcount.
  rewrite Hv in Hcount.
  assert (Hz : value v = 0 ->
               List.length (numeral (conv_base f) 64 (value v)) = 1%nat).
  { intros ->. rewrite numeral_zero by assumption. reflexivity. }
  destruct (base_prefix_length f (value v)) as (P2 & P1 & P0).
  eexists _, (List.length (numeral (conv_base f) 64 (value v))).
  split; [apply ToFormattedString_spec; assumption|].
  split; [reflexivity|].
  rewrite string_of_list_ascii_length, length_app, length_map.
  split; [reflexivity|]. split; [exact Hz|]. split; [exact Hcount|].
  revert Hc Hz Hcount P2 P1 P0.
  generalize (numeral (conv_base f) 64 (value v)).
  generalize (base_prefix f (value v)).
  intros pre l Hc Hz Hcount P2 P1 P0.
  assert (Hlen : (1 <= List.length l)%nat).
  { destruct Hc as (_ & Hne & _). destruct l; [congruence | cbn; lia]. }
  assert (Hup : forall n : Z, 2 ^ 128 <= conv_base f ^ n -> 0 <= n ->
                              (List.length l <= Z.to_nat n)%nat).
  { intros n Hn Hn0.
    destruct (Z.eq_dec (value v) 0) as [E | E]; [rewrite (Hz E)|].
    - destruct (Z.eq_dec n 0) as [-> | ?]; [|lia].
      rewrite Z.pow_0_r in Hn. lia.
    - specialize (Hcount E).
      assert (Z.of_nat (List.length l) - 1 < n); [|lia].
      apply (Z.pow_lt_mono_r_iff (conv_base f)); lia. }
  split; [split; [lia|]|].
  - unfold conv_base in *.
    destruct (basefield_is_oct f) eqn:Eo, (basefield_is_hex f) eqn:Eh.
    + specialize (Hup 43 ltac:(vm_compute; discriminate) ltac:(lia)).
      unfold basefield_is_oct, basefield_is_hex in *.
      destruct (f_dec f), (f_oct f), (f_hex f); discriminate.
    + specialize (Hup 43 ltac:(vm_compute; discriminate) ltac:(lia)).
      specialize (P1 eq_refl). lia.
    + specialize (Hup 32 ltac:(vm_compute; discriminate) ltac:(lia)). lia.
    + specialize (Hup 39 ltac:(vm_compute; discriminate) ltac:(lia)). lia.
  - intros H10. rewrite (P0 H10). cbn [List.length].
    rewrite H10 in Hup.
    specialize (Hup 39 ltac:(vm_compute; discriminate) ltac:(lia)). lia.
Qed.

Lemma ToFormattedString_length_witness :
  wf128 Uint128Max /\
  exists (s : string) (k : nat),
    ToFormattedString Fallback Uint128Max ios_dec = Some s /\
    k = List.length (numeral (conv_base ios_dec) 64 (value Uint128Max)) /\
    String.length s
    = (List.length (base_prefix ios_dec (value Uint128Max)) + k)%nat /\
    (value Uint128Max = 0 -> k = 1%nat) /\
    (value Uint128Max <> 0 ->
     conv_base ios_dec ^ (Z.of_nat k - 1) <= value Uint128Max
     < conv_base ios_dec ^ Z.of_nat k) /\
    (1 <= String.length s <= 44)%nat /\
    (conv_base ios_dec = 10 -> (String.length s <= 39)%nat).
Proof.
  split; [closed_range|].
  apply (ToFormattedString_length Fallback Uint128Max ios_dec).
  closed_range.
Defined.

(** ** The signed formatter *)

Lemma string_append_nil_l (s : string) : (""%string ++ s)%string = s.
Proof. reflexivity. Qed.

Lemma string_append_char_l (c : ascii) (l : list ascii) :
  (String c ""%string ++ string_of_list_ascii l)%string
  = string_of_list_ascii (c :: l).
Proof. reflexivity. Qed.

Lemma print_as_decimal_base (f : fmtflags) :
  print_as_decimal f = true ->
  conv_base f = 10 /\ basefield_is_hex f = false /\
  basefield_is_oct f = false.
Proof.
  unfold print_as_decimal, conv_base, basefield_is_hex, basefield_is_oct.
  destruct (f_dec f), (f_oct f), (f_hex f); cbn; intros H;
    try discriminate; repeat split.
Qed.

(** The sign that [int128_t::ToFormattedString] writes first. *)
Lemma IToFormattedString_spec (p : clz_path) (v : int128_t) (fl : ios_flags) :
  wfi128 v ->
  let f := io_fmt fl in
  let u := if print_as_decimal f then UnsignedAbsoluteValue v
           else uint128_of_int128 v in
  IToFormattedString p v fl =
  Some (string_of_list_ascii
          ((if print_as_decimal f then
              if svalue v <? 0 then ["-"%char]
              else if io_showpos fl then ["+"%char] else []
            else [])
           ++ base_prefix f (value u)
           ++ map (digit_char (f_uppercase f))
                  (numeral (conv_base f) 64 (value u)))).
Proof.
  intros Wv f u. unfold IToFormattedString. fold f. fold u.
  assert (Wu : wf128 u).
  { unfold u. destruct (print_as_decimal f);
      [apply UnsignedAbsoluteValue_spec | apply uint128_of_int128_spec];
      assumption. }
  rewrite (ToFormattedString_spec p u f Wu). cbn [bind].
  rewrite (svalue_sign v Wv).
  generalize (base_prefix f (value u)
              ++ map (digit_char (f_uppercase f))
                     (numeral (conv_base f) 64 (value u))).
  intros body.
  destruct (print_as_decimal f);
    [destruct (svalue v <? 0); [|destruct (io_showpos fl)]|];
    rewrite ?string_append_nil_l, ?string_append_char_l; reflexivity.
Qed.

(** X14: in decimal a signed value prints as its sign, ['-'] for a
    negative value and ['+'] for another one under [showpos], followed
    by the decimal numeral of its absolute value, [Int128Min] included;
    in octal and hexadecimal it prints as the unsigned value of its bit
    pattern, without a sign. *)
Theorem IToFormattedString_sign_and_magnitude
        (p : clz_path) (v : int128_t) (fl : ios_flags) :
  wfi128 v ->
  (print_as_decimal (io_fmt fl) = true ->
   IToFormattedString p v fl =
   Some (string_of_list_ascii
           ((if svalue v <? 0 then ["-"%char]
             else if io_showpos fl then ["+"%char] else [])
            ++ map (digit_char (f_uppercase (io_fmt fl)))
                   (numeral 10 64 (Z.abs (svalue v))))) /\
   canonical 10 (numeral 10 64 (Z.abs (svalue v))) /\
   digits_value 10 (numeral 10 64 (Z.abs (svalue v))) = Z.abs (svalue v)) /\
  (print_as_decimal (io_fmt fl) = false ->
   IToFormattedString p v fl
   = ToFormattedString p (uint128_of_int128 v) (io_fmt fl) /\
   value (uint128_of_int128 v) = svalue v mod 2 ^ 128) /\
  IToString p Int128Min
  = Some "-170141183460469231731687303715884105728"%string.
Proof.
  intros Wv.
  pose proof (IToFormattedString_spec p v fl Wv) as S. cbv zeta in S.
  pose proof (svalue_range v Wv) as Rv.
  split; [|split].
  - intros Hd. rewrite Hd in S.
    destruct (print_as_decimal_base _ Hd) as (HB & Hh & Ho).
    destruct (UnsignedAbsoluteValue_spec v Wv) as [Wu Vu].
    rewrite Vu, HB in S.
    destruct (base_prefix_length (io_fmt fl) (Z.abs (svalue v)))
      as (_ & _ & P0).
    rewrite (P0 HB), app_nil_l in S.
    split; [exact S|].
    split; [apply numeral_canonical; lia|].
    apply numeral_value; [lia|].
    assert (2 ^ 128 <= 10 ^ 64) by (vm_compute; discriminate). lia.
  - intros Hd. rewrite Hd in S.
    destruct (uint128_of_int128_spec v Wv) as [Wu Vu].
    rewrite ToFormattedString_spec by assumption.
    rewrite app_nil_l in S. split; [exact S | exact Vu].
  - destruct p; vm_compute; reflexivity.
Qed.

Lemma IToFormattedString_sign_and_magnitude_witness :
  wfi128 (int128_of_signed (-42)) /\
  (print_as_decimal (io_fmt {| io_fmt := ios_dec; io_showpos := true;
                               io_left := false; io_internal := false;
                               io_right := false |}) = true ->
   IToFormattedString Fallback (int128_of_signed (-42))
     {| io_fmt := ios_dec; io_showpos := true; io_left := false;
        io_internal := false; io_right := false |} =
   Some (string_of_list_ascii
           ((if svalue (int128_of_signed (-42)) <? 0 then ["-"%char]
             else if io_showpos
                       {| io_fmt := ios_dec; io_showpos := true;
                          io_left := false; io_internal := false;
                          io_right := false |}
                  then ["+"%char] else [])
            ++ map (digit_char
                      (f_uppercase
                         (io_fmt {| io_fmt := ios_dec; io_showpos := true;
                                    io_left := false; io_internal := false;
                                    io_right := false |})))
                   (numeral 10 64 (Z.abs (svalue (int128_of_signed (-42))))))) /\
   canonical 10 (numeral 10 64 (Z.abs (svalue (int128_of_signed (-42))))) /\
   digits_value 10 (numeral 10 64 (Z.abs (svalue (int128_of_signed (-42)))))
   = Z.abs (svalue (int128_of_signed (-42)))) /\
  (print_as_decimal (io_fmt {| io_fmt := ios_dec; io_showpos := true;
                               io_left := false; io_internal := false;
                               io_right := false |}) = false ->
   IToFormattedString Fallback (int128_of_signed (-42))
     {| io_fmt := ios_dec; io_showpos := true; io_left := false;
        io_internal := false; io_right := false |}
   = ToFormattedString Fallback (uint128_of_int128 (int128_of_signed (-42)))
       (io_fmt {| io_fmt := ios_dec; io_showpos := true; io_left := false;
                  io_internal := false; io_right := false |}) /\
   value (uint128_of_int128 (int128_of_signed (-42)))
   = svalue (int128_of_signed (-42)) mod 2 ^ 128) /\
  IToString Fallback Int128Min
  = Some "-170141183460469231731687303715884105728"%string.
Proof.
  split; [closed_range|].
  apply (IToFormattedString_sign_and_magnitude Fallback
           (int128_of_signed (-42))
           {| io_fmt := ios_dec; io_showpos := true; io_left := false;
              io_internal := false; io_right := false |}).
  closed_range.
Defined.

(** ** Stream insertion *)









Example insert_uint128_internal_hex :
  insert_uint128 Fallback (ostream_with ios_internal_hex "*"%char 8)
    (uint128_of_signed 255)
  = Some {| o_flags := ios_internal_hex; o_fill := "*"%char; o_width := 0;
            o_buf := list_ascii_of_string "0x****ff" |}.
Proof. vm_compute. reflexivity. Qed.






Example insert_int128_internal_sign :
  insert_int128 Fallback (ostream_with ios_internal_dec "."%char 7)
    (int128_of_signed (-42))
  = Some {| o_flags := ios_internal_dec; o_fill := "."%char; o_width := 0;
            o_buf := list_ascii_of_string "-....42" |}.
Proof. vm_compute. reflexivity. Qed.

(** ** Limits, zero tests and division by a power of two *)

(** X17: [Uint128Max()] is above every unsigned value, and every signed
    value lies between [Int128Min()] and [Int128Max()], which are
    [-2^127] and [2^127 - 1]; the bit pattern of [Int128Min()] is the one
    after that of [Int128Max()]. *)
Theorem limits_are_extreme (v : uint128_t) (s : int128_t) :
  wf128 v -> wfi128 s ->
  le128 v Uint128Max = true /\ value Uint128Max = 2 ^ 128 - 1 /\
  svalue Int128Min <= svalue s <= svalue Int128Max /\
  svalue Int128Min = - 2 ^ 127 /\ svalue Int128Max = 2 ^ 127 - 1 /\
  uint128_of_int128 Int128Min = inc128 (uint128_of_int128 Int128Max).
Proof.
  intros Wv Ws.
  assert (WM : wf128 Uint128Max)
    by (split; unfold U64.in_range, U64.modulus; cbn; lia).
  unfold le128. rewrite lt128_value by assumption.
  pose proof (value_range v Wv). pose proof (svalue_range s Ws).
  change (value Uint128Max) with (2 ^ 128 - 1).
  change (svalue Int128Min) with (- 2 ^ 127).
  change (svalue Int128Max) with (2 ^ 127 - 1).
  split; [destruct (Z.ltb_spec (2 ^ 128 - 1) (value v)); [lia | reflexivity]|].
  split; [reflexivity|].
  split; [lia|]. repeat split; reflexivity.
Qed.

Lemma limits_are_extreme_witness :
  wf128 (MakeUint128 3 4) /\ wfi128 (int128_of_signed (-1)) /\
  le128 (MakeUint128 3 4) Uint128Max = true /\
  value Uint128Max = 2 ^ 128 - 1 /\
  svalue Int128Min <= svalue (int128_of_signed (-1)) <= svalue Int128Max /\
  svalue Int128Min = - 2 ^ 127 /\ svalue Int128Max = 2 ^ 127 - 1 /\
  uint128_of_int128 Int128Min = inc128 (uint128_of_int128 Int128Max).
Proof.
  split; [closed_range|]. split; [closed_range|].
  apply (limits_are_extreme (MakeUint128 3 4) (int128_of_signed (-1)));
    closed_range.
Defined.

(** X18: [operator bool] holds exactly for a nonzero value, [operator!]
    exactly for zero, and they agree with [!= 0] and [== 0]. *)
Theorem zero_tests (v : uint128_t) :
  wf128 v ->
  (to_bool v = true <-> value v <> 0) /\
  (lnot128 v = true <-> value v = 0) /\
  to_bool v = ne128 v (uint128_of_signed 0) /\
  lnot128 v = eq128 v (uint128_of_signed 0).
Proof.
  destruct v as [hi lo]. intros [Hh Hl].
  unfold to_bool, lnot128, ne128, eq128, uint128_of_signed.
  cbn [Uint128High64 Uint128Low64 Z.ltb Z.compare] in *.
  change (U64.wrap 0) with 0. unfold value.
  cbn [Uint128High64 Uint128Low64].
  unfold U64.in_range, U64.modulus in *.
  destruct (Z.eqb_spec hi 0), (Z.eqb_spec lo 0); cbn;
    repeat split; intros; try reflexivity; try discriminate; try lia.
Qed.

Lemma zero_tests_witness :
  wf128 (MakeUint128 1 0) /\
  (to_bool (MakeUint128 1 0) = true <-> value (MakeUint128 1 0) <> 0) /\
  (lnot128 (MakeUint128 1 0) = true <-> value (MakeUint128 1 0) = 0) /\
  to_bool (MakeUint128 1 0) = ne128 (MakeUint128 1 0) (uint128_of_signed 0) /\
  lnot128 (MakeUint128 1 0) = eq128 (MakeUint128 1 0) (uint128_of_signed 0).
Proof.
  split; [closed_range|].
  apply (zero_tests (MakeUint128 1 0)). closed_range.
Defined.

(** X19: dividing by [1 << k] is shifting right by [k], and the
    remainder is what the shift drops: the dividend minus the quotient
    shifted back. *)
Theorem division_by_power_of_two (p : clz_path) (a : uint128_t) (k : Z) :
  wf128 a -> 0 <= k < 128 ->
  div128 p a (shl128 (uint128_of_signed 1) k) = Some (shr128 a k) /\
  mod128 p a (shl128 (uint128_of_signed 1) k)
  = Some (sub128 a (shl128 (shr128 a k) k)) /\
  value (sub128 a (shl128 (shr128 a k) k)) = value a mod 2 ^ k.
Proof.
  intros Wa Hk.
  assert (W1 : wf128 (shl128 (uint128_of_signed 1) k))
    by (apply wf_shl128; [apply wf_of_signed | lia]).
  assert (HP : 0 < 2 ^ k) by (apply Z.pow_pos_nonneg; lia).
  assert (HP' : 2 ^ k < 2 ^ 128) by (apply Z.pow_lt_mono_r; lia).
  assert (V1 : value (shl128 (uint128_of_signed 1) k) = 2 ^ k).
  { rewrite value_shl128 by (try apply wf_of_signed; lia).
    rewrite value_one, Z.mul_1_l. apply Z.mod_small. lia. }
  pose proof (value_range a Wa) as Ra.
  assert (Wq : wf128 (shr128 a k)) by (apply wf_shr128; [assumption | lia]).
  assert (Vq : value (shr128 a k) = value a / 2 ^ k)
    by (apply value_shr128; [assumption | lia]).
  assert (Vr : value (sub128 a (shl128 (shr128 a k) k))
               = value a mod 2 ^ k).
  { rewrite value_sub128 by (try apply wf_shl128; try assumption; lia).
    rewrite value_shl128, Vq by (try assumption; lia).
    pose proof (Z.div_mod (value a) (2 ^ k) ltac:(lia)) as DM.
    pose proof (Z.mod_pos_bound (value a) (2 ^ k) HP) as MB.
    assert (0 <= value a / 2 ^ k) by (apply Z.div_pos; lia).
    rewrite (Z.mod_small (value a / 2 ^ k * 2 ^ k)) by nia.
    rewrite Z.mod_small by lia. lia. }
  destruct (DivMod_spec p a _ Wa W1 ltac:(lia))
    as (q & r & E & Wq' & Wr' & Vq' & Vr').
  unfold div128, mod128. rewrite E. cbn [bind]. rewrite V1 in *.
  split; [|split; [|exact Vr]]; f_equal; apply value_inj;
    try assumption; try apply wf_sub128; congruence.
Qed.

Lemma division_by_power_of_two_witness :
  wf128 Uint128Max /\ 0 <= 100 < 128 /\
  div128 Fallback Uint128Max (shl128 (uint128_of_signed 1) 100)
  = Some (shr128 Uint128Max 100) /\
  mod128 Fallback Uint128Max (shl128 (uint128_of_signed 1) 100)
  = Some (sub128 Uint128Max (shl128 (shr128 Uint128Max 100) 100)) /\
  value (sub128 Uint128Max (shl128 (shr128 Uint128Max 100) 100))
  = value Uint128Max mod 2 ^ 100.
Proof.
  split; [closed_range|]. split; [lia|].
  apply (division_by_power_of_two Fallback Uint128Max 100);
    [closed_range | lia].
Defined.
